(** * A shallow embedding of the simulated crypto-exchange ledger engine

    The development follows the TypeScript sources:
    - [models/Transaction.ts]: the transaction record and its factories;
    - [models/Block.ts]: blocks with a lazily cached hash;
    - [controllers/MempoolController.ts]: the bounded, priority-sorted pool;
    - [controllers/ChainController.ts]: chain, balance table, mining,
      validation and balance history.

    Modelling conventions.
    - A JavaScript [number] that holds an amount, a fee, a timestamp, a nonce
      or a counter is an integer [Z]; a priority, which the code computes
      with a division, is an exact rational [Q].  The code's numbers are
      binary64 doubles: its additions, subtractions and comparisons are
      those of [Z] on the safe integers (magnitude below 2^53), and not on
      fractions or beyond that range.  A statement whose truth rests on
      exact sums therefore says so: it carries [isSafeInteger] hypotheses
      on the numbers it adds up, and a statement about recorded priorities
      is made for the values recorded, whatever the division returned.
    - [Date.now()] and [Math.random()] are inputs of the operations that
      read them.
    - The SHA-256 digest of the JSON text of a block is a parameter
      ([digest]) of the section that needs it.
    - An operation that can throw ([TypeError] on reading a property of
      [undefined]) or loop ([while (true)]) returns a [result]. *)

From Stdlib Require Import ZArith QArith String Ascii List Lia Sorted Permutation.
From stdpp Require Import base option list sorting strings pretty gmap fin_maps.

Open Scope string_scope.
Open Scope list_scope.
Open Scope Z_scope.

(** ** Outcomes of operations *)

Inductive result (A : Type) : Type :=
| Ok (a : A)
| TypeError
| OutOfFuel.
Arguments Ok {A} a.
Arguments TypeError {A}.
Arguments OutOfFuel {A}.

(** ** models/Transaction.ts *)

Inductive TransactionType : Type := REGULAR | REWARD | GENESIS.

Definition TransactionType_eqb (a b : TransactionType) : bool :=
  match a, b with
  | REGULAR, REGULAR | REWARD, REWARD | GENESIS, GENESIS => true
  | _, _ => false
  end.

(** [amount] and [fee] are the integer values of the code's numbers (see
    the modelling conventions): what is proved about sums of them is stated
    for safe integers, on which the code's doubles add exactly. *)
Record Transaction : Type := mkTransaction {
  amount : Z;
  payer : string;
  payee : string;
  fee : Z;
  type : TransactionType;
  timestamp : Z;
  signature : option string
}.

(** The object returned by [toJSON]: the type is dropped, the signature kept. *)
Record ITransaction : Type := mkITransaction {
  json_amount : Z;
  json_payer : string;
  json_payee : string;
  json_fee : Z;
  json_timestamp : Z;
  json_signature : option string
}.

(** [new Transaction(amount, payer, payee, fee, type, timestamp)]; [now] is
    the value of [Date.now()] used when no timestamp is passed. *)
Definition newTransaction (now : Z) (a : Z) (from to : string) (f : Z)
    (ty : TransactionType) (stamp : option Z) : Transaction :=
  {| amount := a; payer := from; payee := to; fee := f; type := ty;
     timestamp := default now stamp; signature := None |}.

Definition getTotalCost (tx : Transaction) : Z := amount tx + fee tx.

Definition setSignature (tx : Transaction) (sig : string) : Transaction :=
  {| amount := amount tx; payer := payer tx; payee := payee tx; fee := fee tx;
     type := type tx; timestamp := timestamp tx; signature := Some sig |}.

Definition toJSON (tx : Transaction) : ITransaction :=
  {| json_amount := amount tx; json_payer := payer tx; json_payee := payee tx;
     json_fee := fee tx; json_timestamp := timestamp tx;
     json_signature := signature tx |}.

Definition createReward (now : Z) (minerAddress : string) (rewardAmount : Z)
    : Transaction :=
  newTransaction now rewardAmount "MINING_REWARD" minerAddress 0 REWARD None.

Definition createGenesis (now : Z) : Transaction :=
  newTransaction now 100 "genesis" "satoshi" 0 GENESIS None.

(** ** models/Block.ts *)

Record Block : Type := mkBlock {
  prevHash : string;
  transactions : list Transaction;
  minerAddress : string;
  ts : Z;
  nonce : Z;
  _hash : option string
}.

(** [new Block(prevHash, transactions, minerAddress)]: [now] is [Date.now()],
    [rnd] the value of [Math.round(Math.random() * 999999999)]. *)
Definition newBlock (now rnd : Z) (prev : string) (txs : list Transaction)
    (miner : string) : Block :=
  {| prevHash := prev; transactions := txs; minerAddress := miner;
     ts := now; nonce := rnd; _hash := None |}.

(** The assignment [block.nonce = n]. *)
Definition set_nonce (b : Block) (n : Z) : Block :=
  {| prevHash := prevHash b; transactions := transactions b;
     minerAddress := minerAddress b; ts := ts b; nonce := n;
     _hash := _hash b |}.

Definition setHash (b : Block) (h : string) : Block :=
  {| prevHash := prevHash b; transactions := transactions b;
     minerAddress := minerAddress b; ts := ts b; nonce := nonce b;
     _hash := Some h |}.

Definition getTotalFees (b : Block) : Z :=
  fold_left (fun sum tx => sum + fee tx) (transactions b) 0.

Definition getTransactionCount (b : Block) : nat := length (transactions b).

(** The object that [calculateHash] serialises and digests. *)
Record HashInput : Type := mkHashInput {
  in_prevHash : string;
  in_transactions : list ITransaction;
  in_ts : Z;
  in_nonce : Z;
  in_minerAddress : string
}.

(** JavaScript truthiness of a string: only the empty string is falsy. *)
Definition truthy (s : string) : bool :=
  match s with
  | EmptyString => false
  | String _ _ => true
  end.

(** ** controllers/MempoolController.ts *)

Record IPendingTransaction : Type := mkPending {
  transaction : Transaction;
  priority : Q
}.

Record MempoolController : Type := mkMempool {
  pendingTransactions : list IPendingTransaction;
  maxPoolSize : Z
}.

Definition newMempoolController (size : option Z) : MempoolController :=
  {| pendingTransactions := []; maxPoolSize := default 100 size |}.

Definition getPendingCount (m : MempoolController) : Z :=
  Z.of_nat (length (pendingTransactions m)).

(** [fee * 1000 / (age + 1)] with [age = (Date.now() - timestamp) / 1000],
    as an exact rational.  The code computes the quotient in doubles, so the
    number it records is this one rounded (and equal to it where the
    quotient is exact, as for an age of 0); at [age + 1 = 0], a timestamp
    exactly one second ahead of the clock, the code yields an infinity or
    NaN where [Q] yields 0.  What is proved about the order of the pool is
    therefore stated for the recorded priorities, not for this value. *)
Definition calculatePriority (now : Z) (tx : Transaction) : Q :=
  let age := (inject_Z (now - timestamp tx) / inject_Z 1000)%Q in
  (inject_Z (fee tx) * inject_Z 1000 / (age + 1))%Q.

(** [Array.prototype.sort] is stable; the comparator [b.priority - a.priority]
    puts [a] first when its priority is larger and keeps the order of ties. *)
Fixpoint insertByPriority (x : IPendingTransaction)
    (l : list IPendingTransaction) : list IPendingTransaction :=
  match l with
  | [] => [x]
  | y :: l' =>
      if Qle_bool (priority y) (priority x) then x :: y :: l'
      else y :: insertByPriority x l'
  end.

Fixpoint sortByPriority (l : list IPendingTransaction)
    : list IPendingTransaction :=
  match l with
  | [] => []
  | x :: l' => insertByPriority x (sortByPriority l')
  end.

(** [pendingTransactions[length - 1]], [undefined] on an empty pool. *)
Definition getLowestPriority (m : MempoolController)
    : option IPendingTransaction :=
  last (pendingTransactions m).

(** [pendingTransactions.pop()]. *)
Definition removeLowestPriority (m : MempoolController) : MempoolController :=
  {| pendingTransactions := removelast (pendingTransactions m);
     maxPoolSize := maxPoolSize m |}.

(** The tail of [addTransaction]: build the entry, push it, sort. *)
Definition pushPending (now : Z) (tx : Transaction) (m : MempoolController)
    : MempoolController :=
  let pending := {| transaction := tx; priority := calculatePriority now tx |} in
  {| pendingTransactions := sortByPriority (pendingTransactions m ++ [pending]);
     maxPoolSize := maxPoolSize m |}.

Definition addTransaction (now : Z) (tx : Transaction) (m : MempoolController)
    : result (bool * MempoolController) :=
  if Z.of_nat (length (pendingTransactions m)) >=? maxPoolSize m then
    match getLowestPriority m with
    | None => TypeError
    | Some lowestPriority =>
        if Qle_bool (inject_Z (fee tx)) (priority lowestPriority)
        then Ok (false, m)
        else Ok (true, pushPending now tx (removeLowestPriority m))
    end
  else Ok (true, pushPending now tx m).

(** [Array.prototype.slice]: a negative index counts from the end, and both
    bounds are clamped to the array. *)
Definition relativeIndex (len : nat) (i : Z) : nat :=
  if i <? 0 then Z.to_nat (Z.max (Z.of_nat len + i) 0)
  else Z.to_nat (Z.min i (Z.of_nat len)).

Definition slice {A : Type} (l : list A) (start : Z) (stop : option Z)
    : list A :=
  let k := relativeIndex (length l) start in
  let final := match stop with
               | None => length l
               | Some e => relativeIndex (length l) e
               end in
  take (final - k)%nat (drop k l).

Definition getTransactionsForBlock (maxTransactions : Z) (m : MempoolController)
    : list Transaction * MempoolController :=
  let transactions :=
    map transaction (slice (pendingTransactions m) 0 (Some maxTransactions)) in
  (transactions,
   {| pendingTransactions := slice (pendingTransactions m) maxTransactions None;
      maxPoolSize := maxPoolSize m |}).

(** ** controllers/ChainController.ts *)

Module IMiningResult.
Record t : Type := make { solution : Z; attempts : Z; hash : string }.
End IMiningResult.

Module IBalanceHistory.
Record t : Type := make {
  address : string;
  balance : Z;
  timestamp : Z;
  blockHeight : Z
}.
End IBalanceHistory.

Record ChainController : Type := mkChain {
  chain : list Block;
  mempool : MempoolController;
  balances : gmap string Z;
  difficulty : Z
}.

Definition miningReward : Z := 50.
Definition maxTransactionsPerBlock : Z := 10.

Definition getBalance (c : ChainController) (address : string) : Z :=
  default 0 (balances c !! address).

Definition updateBalance (address : string) (amt : Z) (c : ChainController)
    : ChainController :=
  let currentBalance := getBalance c address in
  {| chain := chain c; mempool := mempool c;
     balances := <[address := currentBalance + amt]> (balances c);
     difficulty := difficulty c |}.

(** The constructor followed by [createGenesisBlock]: the two clock readings
    are the timestamps of the genesis transaction and of the genesis block. *)
Definition newChainController (nowTx nowBlock rnd : Z) : ChainController :=
  let genesisTransaction := createGenesis nowTx in
  let genesisBlock :=
    newBlock nowBlock rnd EmptyString [genesisTransaction] "GENESIS" in
  updateBalance "satoshi" 100
    {| chain := [] ++ [genesisBlock];
       mempool := newMempoolController None;
       balances := ∅;
       difficulty := 4 |}.

Definition getChain (c : ChainController) : list Block := chain c.

(** [chain[chain.length - 1]]. *)
Definition getLastBlock (c : ChainController) : option Block := last (chain c).

Definition getChainLength (c : ChainController) : Z :=
  Z.of_nat (length (chain c)).

Definition getPendingTransactionCount (c : ChainController) : Z :=
  getPendingCount (mempool c).

Definition getDifficulty (c : ChainController) : Z := difficulty c.

Definition setDifficulty (d : Z) (c : ChainController) : ChainController :=
  {| chain := chain c; mempool := mempool c; balances := balances c;
     difficulty := Z.max 1 (Z.min 8 d) |}.

Inductive Reason : Type :=
| InsufficientBalance (has needs : Z)
| AmountNotPositive
| NegativeFee.

Record Validation : Type := mkValidation {
  valid : bool;
  reason : option Reason
}.

Definition validateTransaction (c : ChainController) (tx : Transaction)
    : Validation :=
  if TransactionType_eqb (type tx) REWARD || TransactionType_eqb (type tx) GENESIS
  then {| valid := true; reason := None |}
  else
    let senderBalance := getBalance c (payer tx) in
    let totalCost := getTotalCost tx in
    if senderBalance <? totalCost then
      {| valid := false;
         reason := Some (InsufficientBalance senderBalance totalCost) |}
    else if amount tx <=? 0 then
      {| valid := false; reason := Some AmountNotPositive |}
    else if fee tx <? 0 then
      {| valid := false; reason := Some NegativeFee |}
    else {| valid := true; reason := None |}.

Definition addTransactionToMempool (now : Z) (tx : Transaction)
    (c : ChainController) : result (bool * ChainController) :=
  let validation := validateTransaction c tx in
  if negb (valid validation) then Ok (false, c)
  else
    match addTransaction now tx (mempool c) with
    | Ok (accepted, m) =>
        Ok (accepted, {| chain := chain c; mempool := m;
                         balances := balances c; difficulty := difficulty c |})
    | TypeError => TypeError
    | OutOfFuel => OutOfFuel
    end.

(** One iteration of the loop of [processBlockTransactions]. *)
Definition processTransaction (c : ChainController) (tx : Transaction)
    : ChainController :=
  if negb (TransactionType_eqb (type tx) REWARD)
     && negb (TransactionType_eqb (type tx) GENESIS)
  then
    updateBalance (payee tx) (amount tx)
      (updateBalance (payer tx) (- (amount tx + fee tx)) c)
  else updateBalance (payee tx) (amount tx) c.

Definition processBlockTransactions (b : Block) (c : ChainController)
    : ChainController :=
  fold_left processTransaction (transactions b) c.

(** The inner loop of [getBalanceHistory] for one transaction. *)
Definition historyStep (address : string) (bal : Z) (tx : Transaction) : Z :=
  let bal := if String.eqb (payer tx) address then bal - getTotalCost tx
             else bal in
  if String.eqb (payee tx) address then bal + amount tx else bal.

(** The outer loop of [getBalanceHistory], from block index [i] on. *)
Fixpoint historyLoop (address : string) (blocks : list Block) (i : Z)
    (bal : Z) : list IBalanceHistory.t :=
  match blocks with
  | [] => []
  | block :: rest =>
      let bal := fold_left (historyStep address) (transactions block) bal in
      IBalanceHistory.make address bal (ts block) i
        :: historyLoop address rest (i + 1) bal
  end.

Definition getBalanceHistory (c : ChainController) (address : string)
    : list IBalanceHistory.t :=
  historyLoop address (chain c) 0 0.

(** [hash.substring(0, difficulty) === target] with
    [target = '0'.repeat(difficulty)].  ([repeat] throws on a negative
    count; the difficulty of an engine starts at 4 and [setDifficulty] keeps
    it within 1..8, see [Reachable_difficulty].) *)
Definition zeros (d : Z) : string :=
  string_of_list_ascii (repeat "0"%char (Z.to_nat d)).

Definition meetsTarget (d : Z) (h : string) : bool :=
  String.eqb (String.substring 0 (Z.to_nat d) h) (zeros d).

Section ProofOfWork.

(** SHA-256 in hexadecimal of [JSON.stringify] of the hashed object. *)
Variable digest : HashInput -> string.

Definition calculateHash (b : Block) : string :=
  digest {| in_prevHash := prevHash b;
            in_transactions := map toJSON (transactions b);
            in_ts := ts b;
            in_nonce := nonce b;
            in_minerAddress := minerAddress b |}.

(** The getter [hash]. *)
Definition hash (b : Block) : string :=
  match _hash b with
  | Some h => if truthy h then h else calculateHash b
  | None => calculateHash b
  end.

(** The [while (true)] loop of [mine], bounded by [fuel] iterations. *)
Fixpoint mineLoop (fuel : nat) (d : Z) (block : Block) (solution attempts : Z)
    : result (Block * IMiningResult.t) :=
  match fuel with
  | O => OutOfFuel
  | S fuel' =>
      let block := set_nonce block (nonce block + solution) in
      let h := calculateHash block in
      let attempts := attempts + 1 in
      if meetsTarget d h then
        Ok (setHash block h, IMiningResult.make solution attempts h)
      else mineLoop fuel' d block (solution + 1) attempts
  end.

Definition mine (fuel : nat) (d : Z) (block : Block)
    : result (Block * IMiningResult.t) :=
  mineLoop fuel d block 1 0.

(** [mineBlock] up to the construction of the new block: the drained pool
    and the block that is about to be mined. *)
Definition draftBlock (nowTx nowBlock rnd : Z) (minerAddress : string)
    (c : ChainController) : option (Block * MempoolController) :=
  let pendingCount := getPendingCount (mempool c) in
  let '(transactions, pool) :=
    if pendingCount >? 0
    then getTransactionsForBlock maxTransactionsPerBlock (mempool c)
    else ([], mempool c) in
  let totalFees := fold_left (fun sum tx => sum + fee tx) transactions 0 in
  let rewardTransaction :=
    createReward nowTx minerAddress (miningReward + totalFees) in
  let transactions := transactions ++ [rewardTransaction] in
  match getLastBlock c with
  | None => None
  | Some lastBlock =>
      Some (newBlock nowBlock rnd (hash lastBlock) transactions minerAddress,
            pool)
  end.

Definition mineBlock (fuel : nat) (nowTx nowBlock rnd : Z)
    (minerAddress : string) (c : ChainController)
    : result (Block * ChainController) :=
  match draftBlock nowTx nowBlock rnd minerAddress c with
  | None => TypeError
  | Some (newBlock, pool) =>
      match mine fuel (difficulty c) newBlock with
      | Ok (minedBlock, _) =>
          Ok (minedBlock,
              processBlockTransactions minedBlock
                {| chain := chain c ++ [minedBlock]; mempool := pool;
                   balances := balances c; difficulty := difficulty c |})
      | TypeError => TypeError
      | OutOfFuel => OutOfFuel
      end
  end.

(** The loop of [isChainValid] from index [i] on, [previousBlock] being
    [chain[i - 1]] and [rest] the blocks from [chain[i]]. *)
Fixpoint validFrom (d : Z) (previousBlock : Block) (rest : list Block) : bool :=
  match rest with
  | [] => true
  | currentBlock :: rest' =>
      if negb (String.eqb (prevHash currentBlock) (hash previousBlock))
      then false
      else if negb (String.prefix (zeros d) (hash currentBlock))
      then false
      else validFrom d currentBlock rest'
  end.

Definition isChainValid (c : ChainController) : bool :=
  match chain c with
  | [] => true
  | genesisBlock :: rest => validFrom (difficulty c) genesisBlock rest
  end.

End ProofOfWork.

(** ** Ledger states and quantities the properties speak about *)

(** States of the engine: a fresh engine, then any sequence of submissions
    (of transactions satisfying [P]), completed [mineBlock] calls and
    difficulty changes. *)
Inductive Reachable (digest : HashInput -> string) (P : Transaction -> Prop)
    : ChainController -> Prop :=
| reach_new (nowTx nowBlock rnd : Z) :
    Reachable digest P (newChainController nowTx nowBlock rnd)
| reach_submit (c c' : ChainController) (now : Z) (tx : Transaction)
    (accepted : bool) :
    Reachable digest P c -> P tx ->
    addTransactionToMempool now tx c = Ok (accepted, c') ->
    Reachable digest P c'
| reach_mine (c c' : ChainController) (fuel : nat) (nowTx nowBlock rnd : Z)
    (miner : string) (b : Block) :
    Reachable digest P c ->
    mineBlock digest fuel nowTx nowBlock rnd miner c = Ok (b, c') ->
    Reachable digest P c'
| reach_setDifficulty (c : ChainController) (d : Z) :
    Reachable digest P c -> Reachable digest P (setDifficulty d c).

Definition anyTransaction (tx : Transaction) : Prop := True.


(** All transactions confirmed in a chain, in order. *)
Definition confirmed (blocks : list Block) : list Transaction :=
  concat (map transactions blocks).

Definition sumOver (f : Transaction -> Z) (txs : list Transaction) : Z :=
  fold_right (fun tx acc => f tx + acc) 0 txs.

(** Amounts of the REWARD transactions, fees of the REGULAR ones. *)
Definition rewardAmount (tx : Transaction) : Z :=
  if TransactionType_eqb (type tx) REWARD then amount tx else 0.






(** What [processBlockTransactions] adds to the balance of [address]. *)
Definition ledgerStep (address : string) (bal : Z) (tx : Transaction) : Z :=
  if negb (TransactionType_eqb (type tx) REWARD)
     && negb (TransactionType_eqb (type tx) GENESIS)
  then
    let bal := if String.eqb (payer tx) address
               then bal - (amount tx + fee tx) else bal in
    if String.eqb (payee tx) address then bal + amount tx else bal
  else if String.eqb (payee tx) address then bal + amount tx else bal.

(** [address] pays a REWARD or GENESIS transaction of the list. *)
Definition paysSynthetic (address : string) (txs : list Transaction) : Prop :=
  Exists (fun tx => type tx <> REGULAR /\ payer tx = address) txs.

(** Descending priority, the order [sortByPriority] establishes. *)
Definition byPriority (a b : IPendingTransaction) : Prop :=
  (priority b <= priority a)%Q.

(** The balance of the last entry of a history. *)
Definition finalBalance (h : list IBalanceHistory.t) : option Z :=
  IBalanceHistory.balance <$> last h.

(** [1 + 2 + ... + k]. *)
Fixpoint triangle (k : nat) : Z :=
  match k with
  | O => 0
  | S k' => triangle k' + Z.of_nat (S k')
  end.

(** The nonce that the [k]-th iteration of [mine] tries: the seed plus
    [1 + 2 + ... + k], as [solution] grows by one per iteration.  The code
    adds in doubles: this is its nonce as long as the sum is a safe
    integer (up to about 1.34e8 iterations from a seed below 1e9). *)
Definition nonceAt (seed : Z) (k : nat) : Z := seed + triangle k.

(** The nonce after [k] more iterations of the loop of [mine] entered with
    nonce [n] and [solution = s]. *)
Fixpoint nonceFrom (n s : Z) (k : nat) : Z :=
  match k with
  | O => n
  | S k' => nonceFrom (n + s) (s + 1) k'
  end.

(** What [mineBlock] takes out of the pool: the drained transactions and
    the pool that remains. *)
Definition drained (c : ChainController)
    : list Transaction * MempoolController :=
  if getPendingCount (mempool c) >? 0
  then getTransactionsForBlock maxTransactionsPerBlock (mempool c)
  else ([], mempool c).

(** Adjacent blocks are linked by hash. *)
Definition linked (digest : HashInput -> string) (blocks : list Block) : Prop :=
  forall (i : nat) (previousBlock currentBlock : Block),
    blocks !! i = Some previousBlock ->
    blocks !! S i = Some currentBlock ->
    prevHash currentBlock = hash digest previousBlock.

(** Adjacent blocks are linked and the later one meets the target [d]. *)
Definition linkedAtDifficulty (digest : HashInput -> string) (d : Z)
    (blocks : list Block) : Prop :=
  forall (i : nat) (previousBlock currentBlock : Block),
    blocks !! i = Some previousBlock ->
    blocks !! S i = Some currentBlock ->
    prevHash currentBlock = hash digest previousBlock /\
    String.prefix (zeros d) (hash digest currentBlock) = true.

Definition solvesAt (digest : HashInput -> string) (d : Z) (b : Block)
    (k : nat) : Prop :=
  meetsTarget d (calculateHash digest (set_nonce b (nonceAt (nonce b) k))) = true.

(** ** A small digest and scenarios for concrete runs *)

(** A stand-in for SHA-256: eight zeros when nonce, timestamp and number of
    transactions add up to a multiple of five, followed by a tag. *)
Definition sampleDigest (i : HashInput) : string :=
  let lucky :=
    (in_nonce i + in_ts i + Z.of_nat (length (in_transactions i))) mod 5 =? 0 in
  String.append (if lucky then "00000000" else "a3f09c1e")
    (String.append (pretty (in_nonce i))
       (String.append "-" (pretty (String.length (in_prevHash i))))).

Definition freshEngine : ChainController := newChainController 1000 1000 7.

(** A fresh engine after one coinbase-only block mined by alice. *)
Definition afterFirstBlock : result (Block * ChainController) :=
  mineBlock sampleDigest 10 2000 2000 3 "alice" freshEngine.

Definition aliceToBob : Transaction :=
  setSignature (newTransaction 2500 10 "alice" "bob" 1 REGULAR None) "3045".

(** ... then alice pays bob 10 with fee 1, and carol mines the transfer. *)
Definition afterTransfer : result (Block * ChainController) :=
  match afterFirstBlock with
  | Ok (_, c1) =>
      match addTransactionToMempool 2500 aliceToBob c1 with
      | Ok (_, c2) => mineBlock sampleDigest 10 3000 3000 0 "carol" c2
      | TypeError => TypeError
      | OutOfFuel => OutOfFuel
      end
  | TypeError => TypeError
  | OutOfFuel => OutOfFuel
  end.

(** The state component of a completed run, the fresh engine otherwise. *)
Definition stateOf (r : result (Block * ChainController)) : ChainController :=
  match r with
  | Ok (_, c) => c
  | _ => freshEngine
  end.

(** Submit the transactions of a list one after the other, all at [now]. *)
Fixpoint submitAll (now : Z) (txs : list Transaction) (m : MempoolController)
    : result MempoolController :=
  match txs with
  | [] => Ok m
  | tx :: rest =>
      match addTransaction now tx m with
      | Ok (_, m') => submitAll now rest m'
      | TypeError => TypeError
      | OutOfFuel => OutOfFuel
      end
  end.

Definition feeOne : Transaction :=
  newTransaction 5000 3 "alice" "bob" 1 REGULAR None.
Definition feeTwo : Transaction :=
  newTransaction 5000 3 "carol" "bob" 2 REGULAR None.

(** The default pool (capacity 100) filled with one hundred fee-1
    transactions, each submitted at the instant of its creation. *)
Definition fullPool : result MempoolController :=
  submitAll 5000 (repeat feeOne 100) (newMempoolController None).

Definition poolOf (r : result MempoolController) : MempoolController :=
  match r with
  | Ok m => m
  | _ => newMempoolController None
  end.

Definition pending (f : Z) (p : Q) : IPendingTransaction :=
  {| transaction := newTransaction 0 1 "alice" "bob" f REGULAR None;
     priority := p |}.

Definition samplePool : MempoolController :=
  {| pendingTransactions := [pending 5 5000; pending 3 3000; pending 1 1000];
     maxPoolSize := 100 |}.

(** ** Further operations of the models and services *)

(** The object that [Transaction.toString] serialises: the six fields that
    are signed, without the signature.  [JSON.stringify] is injective on
    these objects (fixed keys, numbers and escaped strings), so two such
    texts are equal exactly when the six fields are. *)
Record SignedFields : Type := mkSignedFields {
  str_amount : Z;
  str_payer : string;
  str_payee : string;
  str_fee : Z;
  str_timestamp : Z;
  str_type : TransactionType
}.

Definition toString (tx : Transaction) : SignedFields :=
  {| str_amount := amount tx; str_payer := payer tx; str_payee := payee tx;
     str_fee := fee tx; str_timestamp := timestamp tx; str_type := type tx |}.

(** [a.toString() === b.toString()]. *)
Definition sameText (a b : SignedFields) : bool :=
  (str_amount a =? str_amount b) && String.eqb (str_payer a) (str_payer b)
  && String.eqb (str_payee a) (str_payee b) && (str_fee a =? str_fee b)
  && (str_timestamp a =? str_timestamp b)
  && TransactionType_eqb (str_type a) (str_type b).

(** [MempoolController.hasTransaction]. *)
Definition hasTransaction (tx : Transaction) (m : MempoolController) : bool :=
  existsb (fun pt => sameText (toString (transaction pt)) (toString tx))
    (pendingTransactions m).

(** [MempoolController.getAllPending]: a copy of the array. *)
Definition getAllPending (m : MempoolController) : list IPendingTransaction :=
  pendingTransactions m.

(** The object returned by [Block.toJSON]; [json_hash] is the getter's
    value at the time of the call. *)
Record IBlock : Type := mkIBlock {
  json_prevHash : string;
  json_transactions : list ITransaction;
  json_ts : Z;
  json_nonce : Z;
  json_minerAddress : string;
  json_hash : string
}.

Definition Block_toJSON (digest : HashInput -> string) (b : Block) : IBlock :=
  {| json_prevHash := prevHash b;
     json_transactions := map toJSON (transactions b);
     json_ts := ts b;
     json_nonce := nonce b;
     json_minerAddress := minerAddress b;
     json_hash := hash digest b |}.

(** services/PersistenceService.ts.  The elements of [data.blocks] are
    untyped in the source; the records below give them the properties that
    [reconstructBlocks] reads, optional where the code provides for their
    absence ([fee ?? 0], [type ?? REGULAR], [if (signature)], [if (hash)]);
    the timestamps and the nonce, which [toJSON] always writes, are taken
    as present. *)
Record TxData : Type := mkTxData {
  data_amount : Z;
  data_payer : string;
  data_payee : string;
  data_fee : option Z;
  data_type : option TransactionType;
  data_timestamp : Z;
  data_signature : option string
}.

Record BlockData : Type := mkBlockData {
  data_prevHash : string;
  data_transactions : list TxData;
  data_ts : Z;
  data_nonce : Z;
  data_minerAddress : string;
  data_hash : option string
}.

(** [JSON.parse(JSON.stringify(x))] for the objects that [toJSON] returns:
    numbers and strings come back as they are, a property whose value is
    [undefined] is left out, and a property that [toJSON] does not write
    (the type of a transaction) is absent. *)
Definition parsedTransaction (j : ITransaction) : TxData :=
  {| data_amount := json_amount j; data_payer := json_payer j;
     data_payee := json_payee j; data_fee := Some (json_fee j);
     data_type := None; data_timestamp := json_timestamp j;
     data_signature := json_signature j |}.

Definition parsedBlock (j : IBlock) : BlockData :=
  {| data_prevHash := json_prevHash j;
     data_transactions := map parsedTransaction (json_transactions j);
     data_ts := json_ts j; data_nonce := json_nonce j;
     data_minerAddress := json_minerAddress j;
     data_hash := Some (json_hash j) |}.

(** The [blocks] of the data that [exportToJSON] / [saveBlockchain] write,
    as [loadBlockchain] reads them back. *)
Definition savedBlocks (digest : HashInput -> string) (blocks : list Block)
    : list BlockData :=
  map (fun block => parsedBlock (Block_toJSON digest block)) blocks.

(** The inner [map] callback of [reconstructBlocks]. *)
Definition reconstructTransaction (txData : TxData) : Transaction :=
  let tx := newTransaction 0 (data_amount txData) (data_payer txData)
              (data_payee txData) (default 0 (data_fee txData))
              (default REGULAR (data_type txData))
              (Some (data_timestamp txData)) in
  match data_signature txData with
  | Some sig => if truthy sig then setSignature tx sig else tx
  | None => tx
  end.

(** The outer [map] callback of [reconstructBlocks]. *)
Definition reconstructBlock (blockData : BlockData) : Block :=
  let block := {| prevHash := data_prevHash blockData;
                  transactions :=
                    map reconstructTransaction (data_transactions blockData);
                  minerAddress := data_minerAddress blockData;
                  ts := data_ts blockData;
                  nonce := data_nonce blockData;
                  _hash := None |} in
  match data_hash blockData with
  | Some h => if truthy h then setHash block h else block
  | None => block
  end.

Definition reconstructBlocks (blocks : list BlockData) : list Block :=
  map reconstructBlock blocks.

(** What a save followed by a load and [reconstructBlocks] makes of a
    transaction: the type is REGULAR, an empty signature is gone. *)
Definition reloaded (tx : Transaction) : Transaction :=
  {| amount := amount tx; payer := payer tx; payee := payee tx; fee := fee tx;
     type := REGULAR; timestamp := timestamp tx;
     signature := match signature tx with
                  | Some sig => if truthy sig then Some sig else None
                  | None => None
                  end |}.

Definition noEmptySignature (b : Block) : Prop :=
  Forall (fun tx => signature tx <> Some EmptyString) (transactions b).

(** services/LiveSimulationService.ts: the event log, newest first. *)
Definition maxEvents : Z := 50.

Definition addEvent {E : Type} (event : E) (events : list E) : list E :=
  let events := event :: events in
  if Z.of_nat (length events) >? maxEvents
  then slice events 0 (Some maxEvents)
  else events.

Definition getEvents {E : Type} (count : Z) (events : list E) : list E :=
  slice events 0 (Some count).

(** models/Wallet.ts and models/WalletManager.ts.  The key pair that
    [new Wallet()] generates is an input of [createWallet]; [None] stands
    for the [Error] thrown on a name that is taken. *)
Record Wallet : Type := mkWallet {
  publicKey : string;
  privateKey : string
}.

Record WalletManager : Type := mkWalletManager {
  wallets : gmap string Wallet;
  walletNames : gmap string string
}.

Definition newWalletManager : WalletManager :=
  {| wallets := ∅; walletNames := ∅ |}.

Definition hasWallet (name : string) (wm : WalletManager) : bool :=
  bool_decide (is_Some (wallets wm !! name)).

Definition createWallet (name : string) (wallet : Wallet) (wm : WalletManager)
    : option (Wallet * WalletManager) :=
  if hasWallet name wm then None
  else Some (wallet,
             {| wallets := <[name := wallet]> (wallets wm);
                walletNames := <[publicKey wallet := name]> (walletNames wm) |}).

Definition getWallet (name : string) (wm : WalletManager) : option Wallet :=
  wallets wm !! name.

Definition getWalletName (key : string) (wm : WalletManager) : option string :=
  walletNames wm !! key.

Definition getWalletCount (wm : WalletManager) : nat := size (wallets wm).

(** [Number.MAX_SAFE_INTEGER] and [Number.isSafeInteger]: the integers on
    which the arithmetic of doubles is exact. *)
Definition maxSafeInteger : Z := 9007199254740991.

Definition isSafeInteger (z : Z) : Prop :=
  - maxSafeInteger <= z <= maxSafeInteger.



(** The first iteration of [mine] whose nonce meets the target is the
    [k]-th. *)
Definition firstSolutionAt (digest : HashInput -> string) (d : Z) (b : Block)
    (k : nat) : Prop :=
  solvesAt digest d b k /\
  forall j : nat, (1 <= j < k)%nat ->
    meetsTarget d (calculateHash digest (set_nonce b (nonceAt (nonce b) j)))
    = false.

(** The shape of a block that [mineBlock] appends: up to ten transactions
    followed by the REWARD that pays the miner 50 plus their fees. *)
Definition minedShape (b : Block) : Prop :=
  exists (txs : list Transaction) (stamp : Z),
    transactions b =
      txs ++ [createReward stamp (minerAddress b) (50 + sumOver fee txs)] /\
    (length txs <= 10)%nat /\
    getTotalFees b = sumOver fee txs /\
    Z.of_nat (getTransactionCount b) = Z.of_nat (length txs) + 1.

(** A sample engine and pool entries for concrete runs. *)
Definition stuckBlock : Block :=
  newBlock 2000 5 "a3f09c1e7-0" [createReward 2000 "alice" 50] "alice".



(** * Properties *)

(** ** Balance table *)

Lemma getBalance_updateBalance_eq (c : ChainController) (a : string) (x : Z) :
  getBalance (updateBalance a x c) a = getBalance c a + x.
Proof.
  unfold getBalance, updateBalance; simpl.
  now rewrite lookup_insert_eq.
Qed.

Lemma getBalance_updateBalance_ne (c : ChainController) (a b : string) (x : Z) :
  a <> b -> getBalance (updateBalance a x c) b = getBalance c b.
Proof.
  intros Hne. unfold getBalance, updateBalance; simpl.
  now rewrite lookup_insert_ne.
Qed.



(** ** Genesis *)

(** C3, counterexample: on a fresh engine the identity "root" holds nothing,
    so its balance is not 100. *)
Lemma fresh_engine_root_balance :
  getBalance (newChainController 1000 1000 7) "root" = 0 /\
  getBalance (newChainController 1000 1000 7) "root" <> 100.
Proof. split; [reflexivity | discriminate]. Qed.

(** C3, as amended: a freshly constructed engine has chain length 1, its one
    block is the genesis block (empty previous hash, a single GENESIS
    transaction paying 100 to "satoshi"), the balance of "satoshi" is 100,
    [isChainValid] returns true and nothing is pending. *)
Theorem fresh_engine_genesis (digest : HashInput -> string)
    (nowTx nowBlock rnd : Z) :
  let c := newChainController nowTx nowBlock rnd in
  getChainLength c = 1 /\
  chain c = [newBlock nowBlock rnd EmptyString [createGenesis nowTx] "GENESIS"] /\
  type (createGenesis nowTx) = GENESIS /\
  payee (createGenesis nowTx) = "satoshi" /\
  amount (createGenesis nowTx) = 100 /\
  getBalance c "satoshi" = 100 /\
  isChainValid digest c = true /\
  getPendingTransactionCount c = 0.
Proof. repeat split. Qed.

(** ** Validation on submission *)

(** C4, at the failing input: an unsigned REGULAR transaction from a funded
    payer is accepted into the mempool of a fresh engine. *)
Theorem unsigned_regular_accepted :
  let tx := newTransaction 1500 10 "satoshi" "bob" 1 REGULAR None in
  signature tx = None /\
  exists c', addTransactionToMempool 1500 tx freshEngine = Ok (true, c') /\
             map transaction (pendingTransactions (mempool c')) = [tx] /\
             getPendingTransactionCount c' = 1.
Proof.
  split; [reflexivity |].
  eexists. split; [vm_compute; reflexivity |]. split; reflexivity.
Qed.


(** C5: a REGULAR transaction whose amount plus fee exceeds the balance of
    its payer is refused, and the engine (chain, mempool and its pending
    count, balances, difficulty) is returned as it was. *)
Theorem overdraft_rejected (c : ChainController) (now : Z) (tx : Transaction) :
  type tx = REGULAR ->
  getBalance c (payer tx) < amount tx + fee tx ->
  addTransactionToMempool now tx c = Ok (false, c).
Proof.
  intros Hty Hlt.
  unfold addTransactionToMempool, validateTransaction, getTotalCost.
  rewrite Hty; simpl.
  destruct (Z.ltb_spec (getBalance c (payer tx)) (amount tx + fee tx)) as [_ | Hge];
    [reflexivity | lia].
Qed.

Lemma overdraft_rejected_witness :
  addTransactionToMempool 1500
    (newTransaction 1500 100 "satoshi" "bob" 1 REGULAR None) freshEngine
  = Ok (false, freshEngine).
Proof.
  apply (overdraft_rejected freshEngine 1500
           (newTransaction 1500 100 "satoshi" "bob" 1 REGULAR None)).
  - reflexivity.
  - vm_compute. reflexivity.
Defined.

(** ** The cached hash *)

(** C9: after [setHash] has recorded a hash (a non-empty string, as every
    digest is), the getter returns the recorded value, whatever nonce the
    block is given afterwards. *)
Theorem recorded_hash_is_frozen (digest : HashInput -> string) (b : Block)
    (h : string) (n : Z) :
  h <> EmptyString ->
  hash digest (setHash b h) = h /\
  hash digest (set_nonce (setHash b h) n) = h.
Proof.
  intros Hne. unfold hash; simpl.
  destruct h as [| a h']; [congruence | split; reflexivity].
Qed.

Lemma recorded_hash_is_frozen_witness :
  hash sampleDigest (setHash (newBlock 2000 3 "a3f09c1e7-0" [] "alice") "00000000abc")
    = "00000000abc" /\
  hash sampleDigest
    (set_nonce (setHash (newBlock 2000 3 "a3f09c1e7-0" [] "alice") "00000000abc") 99)
    = "00000000abc".
Proof.
  apply (recorded_hash_is_frozen sampleDigest (newBlock 2000 3 "a3f09c1e7-0" [] "alice")
           "00000000abc" 99).
  discriminate.
Defined.

(** ** The mempool *)

Lemma byPriority_transitive : Transitive byPriority.
Proof.
  intros a b c Hab Hbc. unfold byPriority in *.
  eapply Qle_trans; eassumption.
Qed.

Lemma insertByPriority_sorted (x : IPendingTransaction)
    (l : list IPendingTransaction) :
  StronglySorted byPriority l -> StronglySorted byPriority (insertByPriority x l).
Proof.
  induction 1 as [| y l Hsorted IH Hall]; simpl.
  - repeat constructor.
  - destruct (Qle_bool (priority y) (priority x)) eqn:Hcmp.
    + apply Qle_bool_iff in Hcmp.
      constructor; [constructor; assumption |].
      constructor; [exact Hcmp |].
      eapply Forall_impl; [exact Hall |].
      intros z Hyz. unfold byPriority in *. eapply Qle_trans; eassumption.
    + constructor; [exact IH |].
      assert (Hxy : byPriority y x).
      { unfold byPriority. apply Qlt_le_weak, Qnot_le_lt.
        intros Hle. apply Qle_bool_iff in Hle. congruence. }
      clear IH Hcmp Hsorted.
      induction l as [| z l IHl]; simpl.
      * repeat constructor. exact Hxy.
      * inversion Hall; subst.
        destruct (Qle_bool (priority z) (priority x));
          repeat constructor; auto.
  Qed.

Lemma sortByPriority_sorted (l : list IPendingTransaction) :
  StronglySorted byPriority (sortByPriority l).
Proof.
  induction l as [| x l IH]; simpl.
  - constructor.
  - apply insertByPriority_sorted, IH.
Qed.

Lemma insertByPriority_perm (x : IPendingTransaction)
    (l : list IPendingTransaction) :
  Permutation (insertByPriority x l) (x :: l).
Proof.
  induction l as [| y l IH]; simpl; [reflexivity |].
  destruct (Qle_bool (priority y) (priority x)); [reflexivity |].
  rewrite IH. apply perm_swap.
Qed.

Lemma sortByPriority_perm (l : list IPendingTransaction) :
  Permutation (sortByPriority l) l.
Proof.
  induction l as [| x l IH]; simpl; [reflexivity |].
  rewrite insertByPriority_perm. now rewrite IH.
Qed.

(** Every pool that [addTransaction] returns after an admission is sorted. *)
Lemma pushPending_sorted (now : Z) (tx : Transaction) (m : MempoolController) :
  StronglySorted byPriority (pendingTransactions (pushPending now tx m)).
Proof. apply sortByPriority_sorted. Qed.

(** What [addTransaction] does on a pool at capacity: the fee of the newcomer
    is compared with the recorded priority of the last resident. *)
Lemma addTransaction_at_capacity (now : Z) (tx : Transaction)
    (m : MempoolController) (lowest : IPendingTransaction) :
  maxPoolSize m <= getPendingCount m ->
  getLowestPriority m = Some lowest ->
  addTransaction now tx m =
    if Qle_bool (inject_Z (fee tx)) (priority lowest) then Ok (false, m)
    else Ok (true, pushPending now tx (removeLowestPriority m)).
Proof.
  intros Hfull Hlow. unfold addTransaction, getPendingCount in *.
  destruct (Z.geb_spec (Z.of_nat (length (pendingTransactions m)))
              (maxPoolSize m)) as [_ | Hlt]; [| lia].
  now rewrite Hlow.
Qed.

(** A fee-1 transaction pooled less than 499 seconds after its creation has
    a recorded priority of at least 2. *)
Lemma fee_one_priority (now : Z) (tx : Transaction) :
  fee tx = 1 -> 0 <= now - timestamp tx <= 499000 ->
  (inject_Z 2 <= calculatePriority now tx)%Q.
Proof.
  intros Hfee Hage. unfold calculatePriority. rewrite Hfee.
  set (d := now - timestamp tx) in *.
  apply Qle_shift_div_l.
  - unfold Qlt, Qplus, Qdiv, Qmult, Qinv; simpl. lia.
  - unfold Qle, Qplus, Qdiv, Qmult, Qinv; simpl. lia.
Qed.

(** Hence a full pool whose last resident is such a transaction refuses a
    newcomer with fee 2. *)
Lemma fee_two_refused (now now' : Z) (tx tx' : Transaction)
    (m : MempoolController) (lowest : IPendingTransaction) :
  maxPoolSize m <= getPendingCount m ->
  getLowestPriority m = Some lowest ->
  priority lowest = calculatePriority now tx ->
  fee tx = 1 -> 0 <= now - timestamp tx <= 499000 ->
  fee tx' = 2 ->
  addTransaction now' tx' m = Ok (false, m).
Proof.
  intros Hfull Hlow Hprio Hfee Hage Hfee'.
  rewrite (addTransaction_at_capacity now' tx' m lowest Hfull Hlow).
  rewrite Hfee', Hprio.
  pose proof (fee_one_priority now tx Hfee Hage) as Hle.
  apply Qle_bool_iff in Hle. now rewrite Hle.
Qed.

(** C2, at the failing input: the default pool filled to its capacity of 100
    with fee-1 transactions refuses a fee-2 transaction and stays as it
    was, because the fee 2 is compared with the recorded priority 1000 of
    the last resident; it refuses another fee-1 transaction as well. *)
Theorem full_pool_rejects_higher_fee :
  exists m,
    fullPool = Ok m /\
    getPendingCount m = maxPoolSize m /\
    forallb (fun p => fee (transaction p) =? 1) (pendingTransactions m) = true /\
    (priority <$> getLowestPriority m) = Some (calculatePriority 5000 feeOne) /\
    Qeq (calculatePriority 5000 feeOne) (inject_Z 1000) /\
    fee feeTwo = 2 /\
    addTransaction 5000 feeTwo m = Ok (false, m) /\
    addTransaction 5000 feeOne m = Ok (false, m).
Proof.
  eexists. split; [vm_compute; reflexivity |].
  repeat split; vm_compute; reflexivity.
Qed.

Lemma relativeIndex_zero (len : nat) : relativeIndex len 0 = 0%nat.
Proof. unfold relativeIndex. simpl. lia. Qed.

Lemma relativeIndex_le (len : nat) (i : Z) : (relativeIndex len i <= len)%nat.
Proof. unfold relativeIndex. destruct (i <? 0) eqn:H; lia. Qed.

Lemma relativeIndex_nonneg (len : nat) (i : Z) :
  0 <= i -> relativeIndex len i = Nat.min (Z.to_nat i) len.
Proof.
  intros Hi. unfold relativeIndex.
  destruct (Z.ltb_spec i 0); lia.
Qed.

(** [slice(0, n)] and [slice(n)] cut the array at the same place. *)
Lemma slice_prefix {A : Type} (l : list A) (n : Z) :
  slice l 0 (Some n) = take (relativeIndex (length l) n) l.
Proof.
  unfold slice. rewrite relativeIndex_zero. simpl.
  now rewrite Nat.sub_0_r.
Qed.

Lemma slice_suffix {A : Type} (l : list A) (n : Z) :
  slice l n None = drop (relativeIndex (length l) n) l.
Proof.
  unfold slice. apply take_ge. rewrite length_drop. lia.
Qed.

(** C8: on a pool sorted by descending priority, [getTransactionsForBlock]
    splits the pool into a front part, which it returns (as transactions, in
    the pool's descending priority order), and the rest, which stays in the
    pool in its order; every returned entry has a priority at least that of
    every remaining one; for a count [maxCount >= 0] it returns
    [min maxCount size] transactions, and all of them, leaving the pool empty,
    when [maxCount] is at least the pool size. *)
Theorem drain_takes_highest_priority (m : MempoolController) (maxCount : Z) :
  Sorted byPriority (pendingTransactions m) ->
  exists taken : list IPendingTransaction,
    let '(txs, m') := getTransactionsForBlock maxCount m in
    txs = map transaction taken /\
    pendingTransactions m = taken ++ pendingTransactions m' /\
    maxPoolSize m' = maxPoolSize m /\
    Sorted byPriority taken /\
    Sorted byPriority (pendingTransactions m') /\
    (forall a b, In a taken -> In b (pendingTransactions m') ->
                 (priority b <= priority a)%Q) /\
    (0 <= maxCount ->
     length txs = Nat.min (Z.to_nat maxCount) (length (pendingTransactions m))) /\
    (Z.of_nat (length (pendingTransactions m)) <= maxCount ->
     txs = map transaction (pendingTransactions m) /\
     pendingTransactions m' = []).
Proof.
  intros Hsorted.
  apply Sorted_StronglySorted in Hsorted; [| apply byPriority_transitive].
  set (pool := pendingTransactions m) in *.
  set (k := relativeIndex (length pool) maxCount).
  exists (take k pool).
  unfold getTransactionsForBlock. fold pool.
  rewrite slice_prefix, slice_suffix. fold k. simpl.
  rewrite <- (take_drop k pool) in Hsorted.
  split; [reflexivity |].
  split; [now rewrite take_drop |].
  split; [reflexivity |].
  split; [apply StronglySorted_Sorted; eapply StronglySorted_app_1_l; eassumption |].
  split; [apply StronglySorted_Sorted; eapply StronglySorted_app_1_r; eassumption |].
  split.
  { intros a b Ha Hb.
    apply (StronglySorted_app_1_elem_of byPriority _ _ a b Hsorted);
      now apply list_elem_of_In. }
  split.
  { intros Hpos. rewrite length_map, length_take.
    unfold k. rewrite relativeIndex_nonneg by exact Hpos. lia. }
  intros Hall.
  assert (Hk : k = length pool).
  { unfold k. rewrite relativeIndex_nonneg by lia. lia. }
  rewrite Hk, firstn_all, drop_all. now split.
Qed.

Lemma drain_takes_highest_priority_witness :
  exists taken : list IPendingTransaction,
    let '(txs, m') := getTransactionsForBlock 2 samplePool in
    txs = map transaction taken /\
    pendingTransactions samplePool = taken ++ pendingTransactions m' /\
    maxPoolSize m' = maxPoolSize samplePool /\
    Sorted byPriority taken /\
    Sorted byPriority (pendingTransactions m') /\
    (forall a b, In a taken -> In b (pendingTransactions m') ->
                 (priority b <= priority a)%Q) /\
    (0 <= 2 ->
     length txs = Nat.min (Z.to_nat 2) (length (pendingTransactions samplePool))) /\
    (Z.of_nat (length (pendingTransactions samplePool)) <= 2 ->
     txs = map transaction (pendingTransactions samplePool) /\
     pendingTransactions m' = []).
Proof.
  apply (drain_takes_highest_priority samplePool 2).
  unfold samplePool, byPriority; simpl.
  repeat constructor; simpl; unfold Qle; simpl; lia.
Defined.

(** ** Proof of work *)

Section Mining.

Variable digest : HashInput -> string.

Lemma nonceFrom_closed (k : nat) : forall n s : Z,
  nonceFrom n s k = n + Z.of_nat k * (s - 1) + triangle k.
Proof.
  induction k as [| k IH]; intros n s.
  - simpl. lia.
  - cbn [nonceFrom triangle]. rewrite IH. lia.
Qed.

Lemma nonceFrom_nonceAt (n : Z) (k : nat) : nonceFrom n 1 k = nonceAt n k.
Proof. rewrite nonceFrom_closed. unfold nonceAt. lia. Qed.

(** [set_nonce] only changes what the digest sees through the nonce. *)
Lemma calculateHash_set_nonce (b : Block) (n m : Z) :
  calculateHash digest (set_nonce (set_nonce b n) m)
  = calculateHash digest (set_nonce b m).
Proof. reflexivity. Qed.

(** What a completed search returns. *)
Lemma mineLoop_sound (fuel : nat) (d : Z) : forall (b : Block) (s a : Z)
    (b' : Block) (r : IMiningResult.t),
  mineLoop digest fuel d b s a = Ok (b', r) ->
  prevHash b' = prevHash b /\
  transactions b' = transactions b /\
  minerAddress b' = minerAddress b /\
  ts b' = ts b /\
  _hash b' = Some (IMiningResult.hash r) /\
  calculateHash digest b' = IMiningResult.hash r /\
  meetsTarget d (IMiningResult.hash r) = true.
Proof.
  induction fuel as [| fuel IH]; intros b s a b' r Hrun; simpl in Hrun.
  - discriminate.
  - destruct (meetsTarget d (calculateHash digest (set_nonce b (nonce b + s))))
      eqn:Hmeet.
    + inversion Hrun; subst; simpl. repeat split; assumption.
    + apply IH in Hrun. simpl in Hrun. exact Hrun.
Qed.

(** The search completes within [k] iterations when its [k]-th nonce
    meets the target. *)
Lemma mineLoop_complete (k : nat) (d : Z) : forall (fuel : nat) (b : Block)
    (s a : Z),
  (1 <= k <= fuel)%nat ->
  meetsTarget d (calculateHash digest (set_nonce b (nonceFrom (nonce b) s k)))
    = true ->
  exists b' r, mineLoop digest fuel d b s a = Ok (b', r).
Proof.
  induction k as [| k IH]; intros fuel b s a [Hk Hfuel] Hmeet; [lia |].
  destruct fuel as [| fuel]; [lia |].
  simpl.
  destruct (meetsTarget d (calculateHash digest (set_nonce b (nonce b + s))))
    eqn:Hfirst.
  - eauto.
  - destruct k as [| k].
    + simpl in Hmeet. congruence.
    + apply IH; [lia |].
      cbn [nonceFrom] in Hmeet. exact Hmeet.
Qed.

Lemma mine_complete (k fuel : nat) (d : Z) (b : Block) :
  (1 <= k <= fuel)%nat -> solvesAt digest d b k ->
  exists b' r, mine digest fuel d b = Ok (b', r).
Proof.
  intros Hk Hsolve. unfold mine.
  apply (mineLoop_complete k); [exact Hk |].
  rewrite nonceFrom_nonceAt. exact Hsolve.
Qed.

(** A string that meets a target of at least one zero is not empty. *)
Lemma meetsTarget_nonempty (d : Z) (h : string) :
  1 <= d -> meetsTarget d h = true -> h <> EmptyString.
Proof.
  intros Hd Hmeet ->. unfold meetsTarget, zeros in Hmeet.
  destruct (Z.to_nat d) as [| n] eqn:Hn; [lia |].
  simpl in Hmeet. discriminate.
Qed.

(** The getter of a mined block returns the digest found by the search. *)
Lemma mine_hash (fuel : nat) (d : Z) (b b' : Block) (r : IMiningResult.t) :
  1 <= d -> mine digest fuel d b = Ok (b', r) ->
  hash digest b' = IMiningResult.hash r.
Proof.
  intros Hd Hrun. apply mineLoop_sound in Hrun.
  destruct Hrun as (_ & _ & _ & _ & Hcache & _ & Hmeet).
  unfold hash. rewrite Hcache.
  apply meetsTarget_nonempty in Hmeet; [| exact Hd].
  destruct (IMiningResult.hash r); [congruence | reflexivity].
Qed.

(** ** Shape of a completed [mineBlock] *)

Lemma processTransaction_frame (c : ChainController) (tx : Transaction) :
  chain (processTransaction c tx) = chain c /\
  mempool (processTransaction c tx) = mempool c /\
  difficulty (processTransaction c tx) = difficulty c.
Proof.
  unfold processTransaction.
  destruct (_ && _); repeat split.
Qed.

Lemma processBlockTransactions_frame (b : Block) (c : ChainController) :
  chain (processBlockTransactions b c) = chain c /\
  mempool (processBlockTransactions b c) = mempool c /\
  difficulty (processBlockTransactions b c) = difficulty c.
Proof.
  unfold processBlockTransactions.
  generalize (transactions b) as txs. intros txs. revert c.
  induction txs as [| tx txs IH]; intros c; simpl; [repeat split |].
  destruct (IH (processTransaction c tx)) as (-> & -> & ->).
  apply processTransaction_frame.
Qed.

Lemma mineBlock_inv (fuel : nat) (nowTx nowBlock rnd : Z) (miner : string)
    (c c' : ChainController) (b : Block) :
  mineBlock digest fuel nowTx nowBlock rnd miner c = Ok (b, c') ->
  exists lastBlock,
    getLastBlock c = Some lastBlock /\
    prevHash b = hash digest lastBlock /\
    transactions b =
      (drained c).1 ++
      [createReward nowTx miner
         (miningReward + fold_left (fun sum tx => sum + fee tx) (drained c).1 0)] /\
    (exists r, _hash b = Some r /\ meetsTarget (difficulty c) r = true) /\
    c' = processBlockTransactions b
           {| chain := chain c ++ [b]; mempool := (drained c).2;
              balances := balances c; difficulty := difficulty c |}.
Proof.
  unfold mineBlock, draftBlock. fold (drained c).
  destruct (drained c) as [txs pool]; simpl.
  destruct (getLastBlock c) as [lastBlock |]; [| discriminate].
  destruct (mine digest fuel (difficulty c) _) as [[mined r] | |] eqn:Hmine;
    try discriminate.
  intros Heq. inversion Heq; subst. clear Heq.
  apply mineLoop_sound in Hmine. simpl in Hmine.
  destruct Hmine as (Hprev & Htxs & _ & _ & Hcache & _ & Hmeet).
  exists lastBlock. repeat split; eauto.
Qed.

End Mining.

(** ** Mining a block *)

(** C6: on an engine with nothing pending, [mineBlock] for [addr] completes
    as soon as some nonce of the search meets the target (within [fuel]
    iterations); the appended block holds exactly one transaction, the REWARD
    of amount 50 paying [addr], and the balance of [addr] grows by 50 while
    every other balance stays. *)
Theorem coinbase_only_mining (digest : HashInput -> string)
    (c : ChainController) (lastBlock : Block) (fuel k : nat)
    (nowTx nowBlock rnd : Z) (addr : string) :
  Reachable digest anyTransaction c ->
  getPendingTransactionCount c = 0 ->
  getLastBlock c = Some lastBlock ->
  (1 <= k <= fuel)%nat ->
  solvesAt digest (difficulty c)
    (newBlock nowBlock rnd (hash digest lastBlock)
       [createReward nowTx addr 50] addr) k ->
  exists b c',
    mineBlock digest fuel nowTx nowBlock rnd addr c = Ok (b, c') /\
    transactions b = [createReward nowTx addr 50] /\
    type (createReward nowTx addr 50) = REWARD /\
    amount (createReward nowTx addr 50) = 50 /\
    payee (createReward nowTx addr 50) = addr /\
    chain c' = chain c ++ [b] /\
    getBalance c' addr = getBalance c addr + 50 /\
    (forall other, other <> addr -> getBalance c' other = getBalance c other) /\
    getPendingTransactionCount c' = 0.
Proof.
  intros _ Hempty Hlast Hk Hsolve.
  destruct (mine_complete digest k fuel _ _ Hk Hsolve) as (b & r & Hmine).
  unfold mineBlock, draftBlock.
  unfold getPendingTransactionCount in Hempty. rewrite Hempty. simpl.
  rewrite Hlast. unfold miningReward. simpl.
  change (50 + 0) with 50. rewrite Hmine.
  apply mineLoop_sound in Hmine. simpl in Hmine.
  destruct Hmine as (_ & Htxs & _).
  eexists. eexists. split; [reflexivity |].
  unfold processBlockTransactions. rewrite Htxs. simpl.
  unfold processTransaction. simpl.
  split; [reflexivity |]. split; [reflexivity |]. split; [reflexivity |].
  split; [reflexivity |]. split; [reflexivity |].
  split; [now rewrite getBalance_updateBalance_eq |].
  split; [| exact Hempty].
  intros other Hne. now rewrite getBalance_updateBalance_ne.
Qed.

Lemma coinbase_only_mining_witness :
  exists b c',
    mineBlock sampleDigest 10 3000 3000 1 "alice" freshEngine = Ok (b, c') /\
    transactions b = [createReward 3000 "alice" 50] /\
    type (createReward 3000 "alice" 50) = REWARD /\
    amount (createReward 3000 "alice" 50) = 50 /\
    payee (createReward 3000 "alice" 50) = "alice" /\
    chain c' = chain freshEngine ++ [b] /\
    getBalance c' "alice" = getBalance freshEngine "alice" + 50 /\
    (forall other, other <> "alice" ->
                   getBalance c' other = getBalance freshEngine other) /\
    getPendingTransactionCount c' = 0.
Proof.
  apply (coinbase_only_mining sampleDigest freshEngine
           (newBlock 1000 7 EmptyString [createGenesis 1000] "GENESIS") 10 2
           3000 3000 1 "alice").
  - apply reach_new.
  - reflexivity.
  - reflexivity.
  - lia.
  - vm_compute. reflexivity.
Defined.

(** ** Chain links and validity *)

Section ChainLinks.

Variable digest : HashInput -> string.

Lemma addTransactionToMempool_frame (now : Z) (tx : Transaction)
    (c c' : ChainController) (accepted : bool) :
  addTransactionToMempool now tx c = Ok (accepted, c') ->
  chain c' = chain c /\ balances c' = balances c /\
  difficulty c' = difficulty c.
Proof.
  unfold addTransactionToMempool.
  destruct (negb (valid (validateTransaction c tx))).
  - intros Heq. inversion Heq; subst. repeat split.
  - destruct (addTransaction now tx (mempool c)) as [[acc m] | |];
      try discriminate.
    intros Heq. inversion Heq; subst. repeat split.
Qed.

Lemma mineBlock_chain (fuel : nat) (nowTx nowBlock rnd : Z) (miner : string)
    (c c' : ChainController) (b : Block) :
  mineBlock digest fuel nowTx nowBlock rnd miner c = Ok (b, c') ->
  chain c' = chain c ++ [b] /\ difficulty c' = difficulty c /\
  mempool c' = (drained c).2.
Proof.
  intros Hrun. apply mineBlock_inv in Hrun.
  destruct Hrun as (lastBlock & _ & _ & _ & _ & ->).
  destruct (processBlockTransactions_frame b
              {| chain := chain c ++ [b]; mempool := (drained c).2;
                 balances := balances c; difficulty := difficulty c |})
    as (-> & -> & ->).
  repeat split.
Qed.

Lemma linked_snoc (blocks : list Block) (tip b : Block) :
  linked digest blocks -> last blocks = Some tip ->
  prevHash b = hash digest tip -> linked digest (blocks ++ [b]).
Proof.
  intros Hlinked Htip Hprev i p cur Hp Hcur.
  destruct (decide (S i < length blocks)%nat) as [Hin | Hout].
  - rewrite lookup_app_l in Hp by lia.
    rewrite lookup_app_l in Hcur by lia.
    eapply Hlinked; eassumption.
  - assert (Hlen : (S i < length (blocks ++ [b]))%nat)
      by (eapply lookup_lt_Some; eassumption).
    rewrite length_app in Hlen. simpl in Hlen.
    assert (Hi : S i = length blocks) by lia.
    rewrite lookup_app_l in Hp by lia.
    rewrite lookup_app_r in Hcur by lia.
    rewrite Hi, Nat.sub_diag in Hcur. simpl in Hcur.
    inversion Hcur; subst cur.
    rewrite last_lookup in Htip.
    replace (pred (length blocks)) with i in Htip by lia.
    rewrite Htip in Hp. inversion Hp; subst p. exact Hprev.
Qed.

(** Every state of the engine has a chain linked by hash. *)
Lemma Reachable_linked (P : Transaction -> Prop) (c : ChainController) :
  Reachable digest P c -> linked digest (chain c).
Proof.
  induction 1 as [nowTx nowBlock rnd
                 | c c' now tx accepted _ IH _ Hsubmit
                 | c c' fuel nowTx nowBlock rnd miner b _ IH Hmine
                 | c d _ IH].
  - intros i p cur _ Hcur. simpl in Hcur.
    destruct i; discriminate.
  - apply addTransactionToMempool_frame in Hsubmit.
    destruct Hsubmit as (-> & _). exact IH.
  - pose proof (mineBlock_chain _ _ _ _ _ _ _ _ Hmine) as (-> & _).
    apply mineBlock_inv in Hmine.
    destruct Hmine as (tip & Htip & Hprev & _).
    eapply linked_snoc; eassumption.
  - exact IH.
Qed.

Lemma Reachable_nonempty (P : Transaction -> Prop) (c : ChainController) :
  Reachable digest P c -> chain c <> [].
Proof.
  induction 1 as [nowTx nowBlock rnd
                 | c c' now tx accepted _ IH _ Hsubmit
                 | c c' fuel nowTx nowBlock rnd miner b _ IH Hmine
                 | c d _ IH].
  - discriminate.
  - apply addTransactionToMempool_frame in Hsubmit.
    destruct Hsubmit as (-> & _). exact IH.
  - apply mineBlock_chain in Hmine. destruct Hmine as (-> & _).
    intros Heq. apply app_eq_nil in Heq. destruct Heq; discriminate.
  - exact IH.
Qed.

(** The difficulty of an engine stays within 1..8. *)
Lemma Reachable_difficulty (P : Transaction -> Prop) (c : ChainController) :
  Reachable digest P c -> 1 <= difficulty c <= 8.
Proof.
  induction 1 as [nowTx nowBlock rnd
                 | c c' now tx accepted _ IH _ Hsubmit
                 | c c' fuel nowTx nowBlock rnd miner b _ IH Hmine
                 | c d _ IH].
  - simpl. lia.
  - apply addTransactionToMempool_frame in Hsubmit.
    destruct Hsubmit as (_ & _ & ->). exact IH.
  - apply mineBlock_chain in Hmine. destruct Hmine as (_ & -> & _). exact IH.
  - simpl. lia.
Qed.

(** The loop of [isChainValid] accepts exactly the chains in which every
    adjacent pair is linked and its later block meets the target. *)
Lemma validFrom_spec (d : Z) (rest : list Block) : forall previousBlock,
  validFrom digest d previousBlock rest = true <->
  linkedAtDifficulty digest d (previousBlock :: rest).
Proof.
  induction rest as [| cur rest IH]; intros prev; simpl.
  - split; [| reflexivity].
    intros _ i p c _ Hc. destruct i; discriminate.
  - destruct (String.eqb_spec (prevHash cur) (hash digest prev)) as [Hlink | Hlink];
      simpl.
    + destruct (String.prefix (zeros d) (hash digest cur)) eqn:Htarget; simpl.
      * rewrite IH. split.
        -- intros Hrest [| i] p c Hp Hc; simpl in Hp, Hc.
           ++ inversion Hp; inversion Hc; subst. now split.
           ++ eapply Hrest; eassumption.
        -- intros Hall i p c Hp Hc. apply (Hall (S i)); assumption.
      * split; [discriminate |].
        intros Hall. destruct (Hall 0%nat prev cur eq_refl eq_refl) as [_ Habs].
        congruence.
    + split; [discriminate |].
      intros Hall. destruct (Hall 0%nat prev cur eq_refl eq_refl) as [Habs _].
      contradiction.
Qed.

Lemma isChainValid_spec (c : ChainController) :
  isChainValid digest c = true <->
  linkedAtDifficulty digest (difficulty c) (chain c).
Proof.
  unfold isChainValid. destruct (chain c) as [| g rest].
  - split; [| reflexivity]. intros _ i p cur Hp. discriminate.
  - apply validFrom_spec.
Qed.

End ChainLinks.

(** C7: in every state reached from a fresh engine by submissions, completed
    [mineBlock] calls and difficulty changes, each block after the first
    carries the hash of its predecessor as [prevHash]; and [isChainValid]
    returns true exactly when, for every adjacent pair, that link holds and
    the hash of the later block starts with [difficulty] zeros. *)
Theorem chain_links_and_validity (digest : HashInput -> string)
    (c : ChainController) :
  Reachable digest anyTransaction c ->
  (forall (i : nat) (previousBlock currentBlock : Block),
     chain c !! i = Some previousBlock ->
     chain c !! S i = Some currentBlock ->
     prevHash currentBlock = hash digest previousBlock) /\
  (isChainValid digest c = true <->
   forall (i : nat) (previousBlock currentBlock : Block),
     chain c !! i = Some previousBlock ->
     chain c !! S i = Some currentBlock ->
     prevHash currentBlock = hash digest previousBlock /\
     String.prefix (zeros (difficulty c)) (hash digest currentBlock) = true).
Proof.
  intros Hreach. split.
  - exact (Reachable_linked digest anyTransaction c Hreach).
  - exact (isChainValid_spec digest c).
Qed.

Lemma afterFirstBlock_reachable :
  Reachable sampleDigest anyTransaction (stateOf afterFirstBlock).
Proof.
  assert (Hrun : exists b c', afterFirstBlock = Ok (b, c'))
    by (vm_compute; eauto).
  destruct Hrun as (b & c' & Hrun).
  unfold stateOf. rewrite Hrun.
  eapply reach_mine; [apply reach_new | exact Hrun].
Qed.

Lemma chain_links_and_validity_witness :
  (forall (i : nat) (previousBlock currentBlock : Block),
     chain (stateOf afterFirstBlock) !! i = Some previousBlock ->
     chain (stateOf afterFirstBlock) !! S i = Some currentBlock ->
     prevHash currentBlock = hash sampleDigest previousBlock) /\
  (isChainValid sampleDigest (stateOf afterFirstBlock) = true <->
   forall (i : nat) (previousBlock currentBlock : Block),
     chain (stateOf afterFirstBlock) !! i = Some previousBlock ->
     chain (stateOf afterFirstBlock) !! S i = Some currentBlock ->
     prevHash currentBlock = hash sampleDigest previousBlock /\
     String.prefix (zeros (difficulty (stateOf afterFirstBlock)))
       (hash sampleDigest currentBlock) = true).
Proof.
  apply (chain_links_and_validity sampleDigest (stateOf afterFirstBlock)).
  exact afterFirstBlock_reachable.
Defined.

(** ** Conservation of supply *)


Lemma confirmed_snoc (blocks : list Block) (b : Block) :
  confirmed (blocks ++ [b]) = confirmed blocks ++ transactions b.
Proof.
  unfold confirmed. rewrite map_app, concat_app. simpl.
  now rewrite app_nil_r.
Qed.

Lemma totalFees_sumOver (txs : list Transaction) : forall start : Z,
  fold_left (fun sum tx => sum + fee tx) txs start = start + sumOver fee txs.
Proof.
  induction txs as [| tx txs IH]; intros start; simpl; [lia |].
  rewrite IH. unfold sumOver. lia.
Qed.








Section Conservation.

Variable digest : HashInput -> string.



End Conservation.








(** ** Balance history against the balance table *)

Lemma getBalance_updateBalance (c : ChainController) (a b : string) (x : Z) :
  getBalance (updateBalance a x c) b
  = if String.eqb a b then getBalance c b + x else getBalance c b.
Proof.
  destruct (String.eqb_spec a b) as [-> | Hne].
  - apply getBalance_updateBalance_eq.
  - now apply getBalance_updateBalance_ne.
Qed.

(** [processBlockTransactions] moves the balance of an address by
    [ledgerStep], transaction after transaction. *)
Lemma getBalance_processTransaction (c : ChainController) (tx : Transaction)
    (a : string) :
  getBalance (processTransaction c tx) a = ledgerStep a (getBalance c a) tx.
Proof.
  unfold processTransaction, ledgerStep.
  destruct (_ && _); rewrite !getBalance_updateBalance;
    repeat destruct (String.eqb _ _); lia.
Qed.

Lemma getBalance_processBlockTransactions (b : Block) (c : ChainController)
    (a : string) :
  getBalance (processBlockTransactions b c) a
  = fold_left (ledgerStep a) (transactions b) (getBalance c a).
Proof.
  unfold processBlockTransactions.
  generalize (transactions b) as txs. intros txs. revert c.
  induction txs as [| tx txs IH]; intros c; simpl; [reflexivity |].
  now rewrite IH, getBalance_processTransaction.
Qed.

(** The last entry of a history holds the replay of all transactions. *)
Lemma historyLoop_final (a : string) (blocks : list Block) : forall (i bal : Z),
  blocks <> [] ->
  finalBalance (historyLoop a blocks i bal)
  = Some (fold_left (historyStep a) (confirmed blocks) bal).
Proof.
  unfold finalBalance, confirmed.
  induction blocks as [| b blocks IH]; intros i bal Hne; [contradiction |].
  simpl. rewrite fold_left_app.
  destruct blocks as [| b' blocks].
  - reflexivity.
  - rewrite <- (IH (i + 1) (fold_left (historyStep a) (transactions b) bal))
      by discriminate.
    reflexivity.
Qed.

(** The two replays take the same step except on a REWARD or GENESIS
    transaction paid by the address. *)
Lemma historyStep_ledgerStep (a : string) (bal : Z) (tx : Transaction) :
  type tx = REGULAR \/ payer tx <> a ->
  historyStep a bal tx = ledgerStep a bal tx.
Proof.
  unfold historyStep, ledgerStep, getTotalCost.
  intros [Hreg | Hpayer].
  - rewrite Hreg. reflexivity.
  - destruct (String.eqb_spec (payer tx) a) as [Heq | _]; [contradiction |].
    destruct (_ && _); reflexivity.
Qed.

Lemma replays_agree (a : string) (txs : list Transaction) : forall bal : Z,
  ~ paysSynthetic a txs ->
  fold_left (historyStep a) txs bal = fold_left (ledgerStep a) txs bal.
Proof.
  unfold paysSynthetic.
  induction txs as [| tx txs IH]; intros bal Hnone; simpl; [reflexivity |].
  rewrite historyStep_ledgerStep.
  - apply IH. intros Hex. apply Hnone. now apply Exists_cons_tl.
  - destruct (type tx) eqn:Hty; [now left | |];
      right; intros Hp; apply Hnone; apply Exists_cons_hd;
      (split; [congruence | exact Hp]).
Qed.

Section History.

Variable digest : HashInput -> string.

(** The balance table is the replay of the chain by [ledgerStep]. *)
Lemma Reachable_getBalance (P : Transaction -> Prop) (c : ChainController)
    (a : string) :
  Reachable digest P c ->
  getBalance c a = fold_left (ledgerStep a) (confirmed (chain c)) 0.
Proof.
  induction 1 as [nowTx nowBlock rnd
                 | c c' now tx accepted _ IH _ Hsubmit
                 | c c' fuel nowTx nowBlock rnd miner b _ IH Hmine
                 | c d _ IH].
  - unfold newChainController. rewrite getBalance_updateBalance.
    unfold ledgerStep; cbn -[String.eqb].
    destruct (String.eqb "satoshi" a); reflexivity.
  - apply addTransactionToMempool_frame in Hsubmit.
    destruct Hsubmit as (Hchain & Hbal & _).
    rewrite Hchain, <- IH. unfold getBalance. now rewrite Hbal.
  - pose proof (mineBlock_chain _ _ _ _ _ _ _ _ _ Hmine) as (-> & _).
    apply mineBlock_inv in Hmine.
    destruct Hmine as (tip & _ & _ & _ & _ & ->).
    rewrite getBalance_processBlockTransactions, confirmed_snoc, fold_left_app.
    rewrite <- IH. reflexivity.
  - exact IH.
Qed.

(** Where the history and the balance table agree: at every address that
    is not the payer of a confirmed REWARD or GENESIS transaction. *)
Lemma history_matches_balance (P : Transaction -> Prop)
    (c : ChainController) (a : string) :
  Reachable digest P c ->
  ~ paysSynthetic a (confirmed (chain c)) ->
  finalBalance (getBalanceHistory c a) = Some (getBalance c a).
Proof.
  intros Hreach Hnone. unfold getBalanceHistory.
  rewrite historyLoop_final by (eapply Reachable_nonempty; eassumption).
  rewrite replays_agree by exact Hnone.
  now rewrite (Reachable_getBalance P c a Hreach).
Qed.

End History.

(** C10, at the failing input: on a fresh engine the history of the address
    "genesis" ends at -100 while its balance in the table is 0; after one
    mined block the history of "MINING_REWARD" ends at -50 while its balance
    is 0. *)
Theorem history_debits_synthetic_payers :
  finalBalance (getBalanceHistory freshEngine "genesis") = Some (-100) /\
  getBalance freshEngine "genesis" = 0 /\
  finalBalance (getBalanceHistory (stateOf afterFirstBlock) "MINING_REWARD")
    = Some (-50) /\
  getBalance (stateOf afterFirstBlock) "MINING_REWARD" = 0.
Proof. repeat split; vm_compute; reflexivity. Qed.

(** * Further properties of the code *)

(** ** The mempool as a bounded, sorted queue *)

Lemma sortByPriority_length (l : list IPendingTransaction) :
  length (sortByPriority l) = length l.
Proof. apply Permutation_length, sortByPriority_perm. Qed.

Lemma pushPending_count (now : Z) (tx : Transaction) (m : MempoolController) :
  getPendingCount (pushPending now tx m) = getPendingCount m + 1.
Proof.
  unfold getPendingCount, pushPending; simpl.
  rewrite sortByPriority_length, length_app. simpl. lia.
Qed.

Lemma removeLowestPriority_count (m : MempoolController) :
  pendingTransactions m <> [] ->
  getPendingCount (removeLowestPriority m) = getPendingCount m - 1.
Proof.
  intros Hne. unfold getPendingCount, removeLowestPriority; simpl.
  rewrite removelast_firstn_len, length_take.
  destruct (pendingTransactions m); [contradiction | simpl; lia].
Qed.

Lemma getLowestPriority_nonempty (m : MempoolController)
    (lowest : IPendingTransaction) :
  getLowestPriority m = Some lowest -> pendingTransactions m <> [].
Proof.
  unfold getLowestPriority. intros Hlast Hnil.
  rewrite Hnil in Hlast. discriminate.
Qed.

(** X1: on a pool that holds at most [maxPoolSize >= 1] entries in
    descending priority order, [addTransaction] does not throw, and the
    pool it returns has the same capacity, is within it and is again in
    descending priority order. *)
Theorem addTransaction_keeps_pool (now : Z) (tx : Transaction)
    (m : MempoolController) :
  1 <= maxPoolSize m ->
  getPendingCount m <= maxPoolSize m ->
  Sorted byPriority (pendingTransactions m) ->
  exists (accepted : bool) (m' : MempoolController),
    addTransaction now tx m = Ok (accepted, m') /\
    maxPoolSize m' = maxPoolSize m /\
    getPendingCount m' <= maxPoolSize m' /\
    Sorted byPriority (pendingTransactions m').
Proof.
  intros Hcap Hsize Hsorted. unfold addTransaction.
  destruct (Z.geb_spec (Z.of_nat (length (pendingTransactions m)))
              (maxPoolSize m)) as [Hfull | Hroom].
  - destruct (getLowestPriority m) as [lowest |] eqn:Hlow.
    + destruct (Qle_bool (inject_Z (fee tx)) (priority lowest)).
      * exists false, m. repeat split; assumption.
      * exists true, (pushPending now tx (removeLowestPriority m)).
        split; [reflexivity |]. split; [reflexivity |].
        split; [| apply StronglySorted_Sorted, pushPending_sorted].
        rewrite pushPending_count, removeLowestPriority_count
          by (eapply getLowestPriority_nonempty; eassumption).
        simpl. lia.
    + unfold getLowestPriority in Hlow. apply last_None in Hlow.
      rewrite Hlow in Hfull. simpl in Hfull. lia.
  - exists true, (pushPending now tx m).
    split; [reflexivity |]. split; [reflexivity |].
    split; [| apply StronglySorted_Sorted, pushPending_sorted].
    rewrite pushPending_count. unfold getPendingCount. simpl. lia.
Qed.

Lemma addTransaction_keeps_pool_witness :
  exists (accepted : bool) (m' : MempoolController),
    addTransaction 9000 feeTwo samplePool = Ok (accepted, m') /\
    maxPoolSize m' = maxPoolSize samplePool /\
    getPendingCount m' <= maxPoolSize m' /\
    Sorted byPriority (pendingTransactions m').
Proof.
  apply (addTransaction_keeps_pool 9000 feeTwo samplePool).
  - vm_compute. discriminate.
  - vm_compute. discriminate.
  - unfold samplePool, byPriority; simpl.
    repeat constructor; simpl; unfold Qle; simpl; lia.
Defined.

(** X2: [addTransaction] throws exactly on an empty pool whose capacity is
    zero or negative (it reads the priority of a last entry that does not
    exist); in every other case it returns. *)
Theorem addTransaction_throws_iff (now : Z) (tx : Transaction)
    (m : MempoolController) :
  addTransaction now tx m = TypeError <->
  pendingTransactions m = [] /\ maxPoolSize m <= 0.
Proof.
  unfold addTransaction, getLowestPriority.
  destruct (Z.geb_spec (Z.of_nat (length (pendingTransactions m)))
              (maxPoolSize m)) as [Hfull | Hroom].
  - destruct (last (pendingTransactions m)) as [lowest |] eqn:Hlast.
    + split.
      * destruct (Qle_bool _ _); discriminate.
      * intros [Hnil _]. rewrite Hnil in Hlast. discriminate.
    + apply last_None in Hlast. split; [| reflexivity].
      intros _. split; [exact Hlast |].
      rewrite Hlast in Hfull. simpl in Hfull. lia.
  - split; [discriminate |].
    intros [Hnil Hcap]. rewrite Hnil in Hroom. simpl in Hroom. lia.
Qed.

Lemma insertByPriority_head (x : IPendingTransaction)
    (l : list IPendingTransaction) :
  Forall (byPriority x) l -> insertByPriority x l = x :: l.
Proof.
  intros Hall. destruct l as [| y l]; [reflexivity |]. simpl.
  inversion Hall as [| ? ? Hxy _]; subst.
  unfold byPriority in Hxy. apply Qle_bool_iff in Hxy. now rewrite Hxy.
Qed.

(** Where the stable sort puts an entry pushed behind a sorted pool. *)
Lemma sortByPriority_snoc (p : IPendingTransaction)
    (l : list IPendingTransaction) :
  StronglySorted byPriority l ->
  exists front back,
    l = front ++ back /\
    Forall (fun r => (priority p <= priority r)%Q) front /\
    Forall (fun r => (priority r < priority p)%Q) back /\
    sortByPriority (l ++ [p]) = front ++ p :: back.
Proof.
  induction 1 as [| x l Hsorted IH Hx].
  - exists [], []. repeat split; constructor.
  - destruct IH as (front & back & Hl & Hfront & Hback & Hsort).
    simpl. rewrite Hsort.
    destruct front as [| f front].
    + simpl in *. subst l.
      destruct (Qle_bool (priority p) (priority x)) eqn:Hcmp.
      * apply Qle_bool_iff in Hcmp.
        exists [x], back. repeat split; auto.
      * exists [], (x :: back). simpl.
        assert (Hlt : (priority x < priority p)%Q).
        { apply Qnot_le_lt. intros Hle. apply Qle_bool_iff in Hle. congruence. }
        repeat split; auto.
        now rewrite insertByPriority_head.
    + subst l. simpl.
      inversion Hx as [| ? ? Hxf _]; subst.
      inversion Hfront as [| ? ? Hpf _]; subst.
      unfold byPriority in Hxf.
      pose proof Hxf as Hbool. apply Qle_bool_iff in Hbool. rewrite Hbool.
      exists (x :: f :: front), back. repeat split; auto.
      constructor; [| exact Hfront].
      eapply Qle_trans; eassumption.
Qed.

(** X3: the push-and-sort step of [addTransaction] (the entry is pushed
    at the end, then the array is sorted with the stable comparator
    [b.priority - a.priority]): on a pool in descending order of recorded
    priority, the pushed entry, whatever finite priority was recorded for
    it, ends up behind every resident whose recorded priority is at least
    its own and before every resident of lower recorded priority; the
    residents keep their order (ties are first come, first served). *)
Theorem admitted_behind_equal_priority (pool : list IPendingTransaction)
    (pending : IPendingTransaction) :
  Sorted byPriority pool ->
  exists front back : list IPendingTransaction,
    pool = front ++ back /\
    Forall (fun r => (priority pending <= priority r)%Q) front /\
    Forall (fun r => (priority r < priority pending)%Q) back /\
    sortByPriority (pool ++ [pending]) = front ++ pending :: back.
Proof.
  intros Hsorted.
  apply Sorted_StronglySorted in Hsorted; [| apply byPriority_transitive].
  destruct (sortByPriority_snoc pending pool Hsorted)
    as (front & back & Hpool & Hfront & Hback & Hsort).
  exists front, back. repeat split; assumption.
Qed.

Lemma admitted_behind_equal_priority_witness :
  exists front back : list IPendingTransaction,
    pendingTransactions samplePool = front ++ back /\
    Forall (fun r => (priority (pending 3 3000) <= priority r)%Q) front /\
    Forall (fun r => (priority r < priority (pending 3 3000))%Q) back /\
    sortByPriority (pendingTransactions samplePool ++ [pending 3 3000])
    = front ++ pending 3 3000 :: back.
Proof.
  apply (admitted_behind_equal_priority (pendingTransactions samplePool)
           (pending 3 3000)).
  unfold samplePool, byPriority; simpl.
  repeat constructor; simpl; unfold Qle; simpl; lia.
Defined.

Lemma sameText_refl (a : SignedFields) : sameText a a = true.
Proof.
  unfold sameText.
  rewrite !Z.eqb_refl, !String.eqb_refl. destruct (str_type a); reflexivity.
Qed.

Lemma hasTransaction_pushPending (now : Z) (tx q : Transaction)
    (m : MempoolController) :
  toString q = toString tx ->
  hasTransaction q (pushPending now tx m) = true.
Proof.
  intros Hsame. unfold hasTransaction, pushPending; simpl.
  apply existsb_exists.
  exists {| transaction := tx; priority := calculatePriority now tx |}.
  split.
  - eapply Permutation_in; [symmetry; apply sortByPriority_perm |].
    apply in_or_app. right. now left.
  - simpl. rewrite Hsame. apply sameText_refl.
Qed.

(** X4: what a returning [addTransaction] leaves behind.  After a refusal
    the pool is the one it was.  After an admission [hasTransaction] finds
    the transaction, with or without a signature attached (the signature is
    not part of the compared text), and the pool has grown by one entry
    unless it was full, in which case its size is unchanged. *)
Theorem addTransaction_outcome (now : Z) (tx : Transaction)
    (m m' : MempoolController) (accepted : bool) :
  addTransaction now tx m = Ok (accepted, m') ->
  if accepted then
    hasTransaction tx m' = true /\
    (forall sig, hasTransaction (setSignature tx sig) m' = true) /\
    getPendingCount m' =
      (if getPendingCount m >=? maxPoolSize m then getPendingCount m
       else getPendingCount m + 1)
  else m' = m.
Proof.
  unfold addTransaction. fold (getPendingCount m).
  destruct (getPendingCount m >=? maxPoolSize m).
  - destruct (getLowestPriority m) as [lowest |] eqn:Hlow; [| discriminate].
    destruct (Qle_bool _ _); intros Heq; inversion Heq; subst; [reflexivity |].
    split; [now apply hasTransaction_pushPending |].
    split; [intros sig; now apply hasTransaction_pushPending |].
    rewrite pushPending_count, removeLowestPriority_count
      by (eapply getLowestPriority_nonempty; eassumption).
    lia.
  - intros Heq. inversion Heq; subst.
    split; [now apply hasTransaction_pushPending |].
    split; [intros sig; now apply hasTransaction_pushPending |].
    apply pushPending_count.
Qed.

Lemma addTransaction_outcome_witness :
  hasTransaction feeTwo (pushPending 9000 feeTwo samplePool) = true /\
  (forall sig,
     hasTransaction (setSignature feeTwo sig)
       (pushPending 9000 feeTwo samplePool) = true) /\
  getPendingCount (pushPending 9000 feeTwo samplePool) =
    (if getPendingCount samplePool >=? maxPoolSize samplePool
     then getPendingCount samplePool
     else getPendingCount samplePool + 1).
Proof.
  apply (addTransaction_outcome 9000 feeTwo samplePool
           (pushPending 9000 feeTwo samplePool) true).
  reflexivity.
Defined.

Lemma slice_prefix_nonneg {A : Type} (l : list A) (n : Z) :
  0 <= n -> slice l 0 (Some n) = take (Z.to_nat n) l.
Proof.
  intros Hn. rewrite slice_prefix, relativeIndex_nonneg by exact Hn.
  destruct (Nat.le_ge_cases (Z.to_nat n) (length l)) as [Hle | Hge].
  - now rewrite Nat.min_l.
  - rewrite Nat.min_r by exact Hge.
    now rewrite firstn_all, take_ge.
Qed.

Lemma slice_suffix_nonneg {A : Type} (l : list A) (n : Z) :
  0 <= n -> slice l n None = drop (Z.to_nat n) l.
Proof.
  intros Hn. rewrite slice_suffix, relativeIndex_nonneg by exact Hn.
  destruct (Nat.le_ge_cases (Z.to_nat n) (length l)) as [Hle | Hge].
  - now rewrite Nat.min_l.
  - rewrite Nat.min_r by exact Hge.
    now rewrite drop_all, drop_ge.
Qed.

(** X5: draining in two steps is draining once: for counts [a, b >= 0],
    [getTransactionsForBlock a] followed by [getTransactionsForBlock b]
    returns, put together, the transactions that
    [getTransactionsForBlock (a + b)] returns, and leaves the same pool;
    each step shrinks the pool by what it returns. *)
Theorem drain_in_two_steps (m : MempoolController) (a b : Z) :
  0 <= a -> 0 <= b ->
  let '(first, m1) := getTransactionsForBlock a m in
  let '(second, m2) := getTransactionsForBlock b m1 in
  getTransactionsForBlock (a + b) m = (first ++ second, m2) /\
  getPendingCount m1 = getPendingCount m - Z.of_nat (length first) /\
  getPendingCount m2 = getPendingCount m1 - Z.of_nat (length second).
Proof.
  intros Ha Hb. unfold getTransactionsForBlock, getPendingCount. simpl.
  rewrite !slice_prefix_nonneg, !slice_suffix_nonneg by lia.
  rewrite Z2Nat.inj_add by lia.
  split.
  - rewrite <- map_app, take_take_drop, drop_drop. reflexivity.
  - rewrite !length_map, !length_drop, !length_take, length_drop. lia.
Qed.

Lemma drain_in_two_steps_witness :
  let '(first, m1) := getTransactionsForBlock 1 samplePool in
  let '(second, m2) := getTransactionsForBlock 1 m1 in
  getTransactionsForBlock (1 + 1) samplePool = (first ++ second, m2) /\
  getPendingCount m1 = getPendingCount samplePool - Z.of_nat (length first) /\
  getPendingCount m2 = getPendingCount m1 - Z.of_nat (length second).
Proof.
  apply (drain_in_two_steps samplePool 1 1); lia.
Defined.

(** X6: a negative count does not return nothing: as [slice] counts a
    negative index from the end, [getTransactionsForBlock maxCount] with
    [maxCount < 0] leaves the last [-maxCount] entries in the pool and
    returns all the entries before them. *)
Theorem drain_negative_count (m : MempoolController) (maxCount : Z) :
  maxCount < 0 ->
  let pool := pendingTransactions m in
  let kept := Nat.min (Z.to_nat (- maxCount)) (length pool) in
  getTransactionsForBlock maxCount m =
    (map transaction (take (length pool - kept) pool),
     {| pendingTransactions := drop (length pool - kept) pool;
        maxPoolSize := maxPoolSize m |}).
Proof.
  intros Hneg. simpl. unfold getTransactionsForBlock.
  rewrite slice_prefix, slice_suffix.
  assert (Hidx : relativeIndex (length (pendingTransactions m)) maxCount
                 = (length (pendingTransactions m)
                    - Nat.min (Z.to_nat (- maxCount))
                        (length (pendingTransactions m)))%nat).
  { unfold relativeIndex. destruct (Z.ltb_spec maxCount 0); lia. }
  now rewrite Hidx.
Qed.

Lemma drain_negative_count_witness :
  getTransactionsForBlock (-1) samplePool =
    (map transaction
       (take (length (pendingTransactions samplePool)
              - Nat.min (Z.to_nat (- -1))
                  (length (pendingTransactions samplePool)))
          (pendingTransactions samplePool)),
     {| pendingTransactions :=
          drop (length (pendingTransactions samplePool)
                - Nat.min (Z.to_nat (- -1))
                    (length (pendingTransactions samplePool)))
            (pendingTransactions samplePool);
        maxPoolSize := maxPoolSize samplePool |}).
Proof.
  apply (drain_negative_count samplePool (-1)). lia.
Defined.

(** ** The proof-of-work search *)

Section Search.

Variable digest : HashInput -> string.

(** The loop entered with [solution = s] and [attempts = a] returns at the
    first iteration whose nonce meets the target. *)
Lemma mineLoop_first (fuel : nat) (d : Z) : forall (b : Block) (s a : Z)
    (b' : Block) (r : IMiningResult.t),
  mineLoop digest fuel d b s a = Ok (b', r) ->
  exists j : nat,
    (1 <= j <= fuel)%nat /\
    IMiningResult.attempts r = a + Z.of_nat j /\
    IMiningResult.solution r = s + Z.of_nat j - 1 /\
    nonce b' = nonceFrom (nonce b) s j /\
    (forall i : nat, (1 <= i < j)%nat ->
       meetsTarget d
         (calculateHash digest (set_nonce b (nonceFrom (nonce b) s i))) = false).
Proof.
  induction fuel as [| fuel IH]; intros b s a b' r Hrun; simpl in Hrun.
  - discriminate.
  - destruct (meetsTarget d (calculateHash digest (set_nonce b (nonce b + s))))
      eqn:Hmeet.
    + inversion Hrun; subst; simpl. exists 1%nat.
      repeat split; intros; lia.
    + apply IH in Hrun. simpl in Hrun.
      destruct Hrun as (j & Hj & Hatt & Hsol & Hnonce & Hearlier).
      exists (S j). repeat split; try lia.
      * exact Hnonce.
      * intros [| [| i]] Hi; [lia | exact Hmeet |].
        apply (Hearlier (S i)). lia.
Qed.

(** The search never throws. *)
Lemma mineLoop_no_throw (fuel : nat) (d : Z) : forall (b : Block) (s a : Z),
  mineLoop digest fuel d b s a <> TypeError.
Proof.
  induction fuel as [| fuel IH]; intros b s a; simpl; [discriminate |].
  destruct (meetsTarget _ _); [discriminate | apply IH].
Qed.

End Search.

Lemma triangle_nonneg (k : nat) : 0 <= triangle k.
Proof. induction k as [| k IH]; cbn [triangle]; lia. Qed.

Lemma triangle_monotone (j k : nat) : (j <= k)%nat -> triangle j <= triangle k.
Proof.
  induction 1 as [| k _ IH]; [lia |].
  cbn [triangle]. lia.
Qed.

(** A returning search has found a nonce of its sequence that meets the
    target. *)
Lemma mine_solved (digest : HashInput -> string) (fuel : nat) (d : Z)
    (b b' : Block) (r : IMiningResult.t) :
  mine digest fuel d b = Ok (b', r) ->
  exists k : nat, (1 <= k <= fuel)%nat /\ solvesAt digest d b k.
Proof.
  intros Hrun. unfold mine in Hrun.
  destruct (mineLoop_first digest fuel d b 1 0 b' r Hrun)
    as (k & Hk & _ & _ & Hnonce & _).
  destruct (mineLoop_sound digest fuel d b 1 0 b' r Hrun)
    as (Hprev & Htxs & Hminer & Hts & _ & Hcalc & Hmeet).
  rewrite nonceFrom_nonceAt in Hnonce.
  exists k. split; [exact Hk |].
  unfold solvesAt. rewrite <- Hnonce.
  replace (calculateHash digest (set_nonce b (nonce b')))
    with (calculateHash digest b'); [congruence |].
  unfold calculateHash; simpl. now rewrite Hprev, Htxs, Hts, Hminer.
Qed.

(** X7: while the nonces stay safe integers (a seed of at least 0 and
    [seed + 1 + ... + fuel] at most [Number.MAX_SAFE_INTEGER], so that the
    additions [nonce + solution] of the code are exact), a [mine] that
    returns within [fuel] iterations returns at the first iteration [k]
    whose nonce (the seed plus [1 + ... + k]) gives a digest with
    [difficulty] leading zeros: no earlier nonce met the target, the
    reported [attempts] and [solution] are both [k], the block carries
    that nonce, and the recorded hash is the digest of the block as
    returned. *)
Theorem mine_returns_first_solution (digest : HashInput -> string)
    (fuel : nat) (d : Z) (b b' : Block) (r : IMiningResult.t) :
  0 <= nonce b ->
  nonceAt (nonce b) fuel <= maxSafeInteger ->
  mine digest fuel d b = Ok (b', r) ->
  exists k : nat,
    (1 <= k <= fuel)%nat /\
    firstSolutionAt digest d b k /\
    IMiningResult.attempts r = Z.of_nat k /\
    IMiningResult.solution r = Z.of_nat k /\
    nonce b' = nonceAt (nonce b) k /\
    isSafeInteger (nonce b') /\
    _hash b' = Some (IMiningResult.hash r) /\
    IMiningResult.hash r = calculateHash digest b' /\
    meetsTarget d (IMiningResult.hash r) = true.
Proof.
  intros Hseed Hsafe Hrun. unfold mine in Hrun.
  destruct (mineLoop_first digest fuel d b 1 0 b' r Hrun)
    as (k & Hk & Hatt & Hsol & Hnonce & Hearlier).
  destruct (mineLoop_sound digest fuel d b 1 0 b' r Hrun)
    as (Hprev & Htxs & Hminer & Hts & Hcache & Hcalc & Hmeet).
  rewrite nonceFrom_nonceAt in Hnonce.
  pose proof (triangle_monotone k fuel ltac:(lia)) as Hmono.
  exists k. split; [exact Hk |]. split.
  - split.
    + unfold solvesAt. rewrite <- Hnonce.
      replace (calculateHash digest (set_nonce b (nonce b')))
        with (calculateHash digest b'); [congruence |].
      unfold calculateHash; simpl. now rewrite Hprev, Htxs, Hts, Hminer.
    + intros j Hj. rewrite <- nonceFrom_nonceAt. now apply Hearlier.
  - split; [lia |]. split; [lia |]. split; [exact Hnonce |].
    split.
    { pose proof (triangle_nonneg k) as Hpos.
      rewrite Hnonce. unfold isSafeInteger, nonceAt, maxSafeInteger in *. lia. }
    split; [exact Hcache |]. split; [congruence | exact Hmeet].
Qed.

Lemma mine_returns_first_solution_witness :
  exists k : nat,
    (1 <= k <= 10)%nat /\
    firstSolutionAt sampleDigest 4
      (newBlock 3000 1 "a3f09c1e7-0" [createReward 3000 "alice" 50] "alice") k /\
    IMiningResult.attempts (IMiningResult.make 2 2 "000000004-11") = Z.of_nat k /\
    IMiningResult.solution (IMiningResult.make 2 2 "000000004-11") = Z.of_nat k /\
    nonce (setHash (set_nonce
             (newBlock 3000 1 "a3f09c1e7-0" [createReward 3000 "alice" 50]
                "alice") 4) "000000004-11")
      = nonceAt
          (nonce (newBlock 3000 1 "a3f09c1e7-0" [createReward 3000 "alice" 50]
                    "alice")) k /\
    isSafeInteger
      (nonce (setHash (set_nonce
                (newBlock 3000 1 "a3f09c1e7-0" [createReward 3000 "alice" 50]
                   "alice") 4) "000000004-11")) /\
    _hash (setHash (set_nonce
             (newBlock 3000 1 "a3f09c1e7-0" [createReward 3000 "alice" 50]
                "alice") 4) "000000004-11")
      = Some (IMiningResult.hash (IMiningResult.make 2 2 "000000004-11")) /\
    IMiningResult.hash (IMiningResult.make 2 2 "000000004-11")
      = calculateHash sampleDigest
          (setHash (set_nonce
             (newBlock 3000 1 "a3f09c1e7-0" [createReward 3000 "alice" 50]
                "alice") 4) "000000004-11") /\
    meetsTarget 4 (IMiningResult.hash (IMiningResult.make 2 2 "000000004-11"))
      = true.
Proof.
  apply (mine_returns_first_solution sampleDigest 10 4
           (newBlock 3000 1 "a3f09c1e7-0" [createReward 3000 "alice" 50] "alice")).
  - simpl. lia.
  - vm_compute. discriminate.
  - vm_compute. reflexivity.
Defined.

(** X8: [mine] has no exit but a solution: while the nonces stay safe
    integers (seed at least 0, [seed + 1 + ... + n] at most
    [Number.MAX_SAFE_INTEGER]), if none of the first [n] nonces seed + 1,
    seed + 1 + 2, ... gives a digest with [difficulty] leading zeros, the
    loop has not returned after [n] iterations and has not thrown (the
    nonces are not consecutive, so a solution at a nonce in between does
    not end the search). *)
Theorem mine_keeps_searching (digest : HashInput -> string)
    (d : Z) (b : Block) (n : nat) :
  0 <= nonce b ->
  nonceAt (nonce b) n <= maxSafeInteger ->
  (forall k : nat, (1 <= k <= n)%nat ->
     meetsTarget d (calculateHash digest (set_nonce b (nonceAt (nonce b) k)))
     = false) ->
  mine digest n d b = OutOfFuel /\
  forall k : nat, (k <= n)%nat -> isSafeInteger (nonceAt (nonce b) k).
Proof.
  intros Hseed Hsafe Hnone. split.
  - destruct (mine digest n d b) as [[b' r] | |] eqn:Hrun.
    + apply mine_solved in Hrun.
      destruct Hrun as (k & Hk & Hsolve).
      unfold solvesAt in Hsolve. rewrite Hnone in Hsolve by lia. discriminate.
    + exfalso. exact (mineLoop_no_throw digest n d b 1 0 Hrun).
    + reflexivity.
  - intros k Hk.
    pose proof (triangle_monotone k n Hk) as Hmono.
    pose proof (triangle_nonneg k) as Hpos.
    unfold isSafeInteger, nonceAt, maxSafeInteger in *. lia.
Qed.

Lemma triangle_double (k : nat) :
  2 * triangle k = Z.of_nat k * (Z.of_nat k + 1).
Proof.
  induction k as [| k IH]; [reflexivity |].
  cbn [triangle]. lia.
Qed.

(** [1 + ... + k] never leaves remainder 4 modulo 5. *)
Lemma triangle_mod5 (k : nat) : triangle k mod 5 <> 4.
Proof.
  intros Hmod.
  pose proof (triangle_double k) as Hdouble.
  pose proof (Z.div_mod (triangle k) 5 ltac:(lia)) as Ht.
  pose proof (Z.div_mod (Z.of_nat k) 5 ltac:(lia)) as Hn.
  pose proof (Z.mod_pos_bound (Z.of_nat k) 5 ltac:(lia)) as Hr.
  rewrite Hmod in Ht.
  set (q := triangle k / 5) in *. set (u := Z.of_nat k / 5) in *.
  set (rem := Z.of_nat k mod 5) in *.
  rewrite Hn, Ht in Hdouble.
  assert (Hcases : rem = 0 \/ rem = 1 \/ rem = 2 \/ rem = 3 \/ rem = 4) by lia.
  assert (Hsq : exists w, w = u * u) by eauto.
  destruct Hsq as (w & Hw).
  destruct Hcases as [-> | [-> | [-> | [-> | ->]]]];
    ring_simplify in Hdouble; nia.
Qed.

Lemma mine_keeps_searching_witness :
  mine sampleDigest 1000 4 stuckBlock = OutOfFuel /\
  forall k : nat, (k <= 1000)%nat -> isSafeInteger (nonceAt (nonce stuckBlock) k).
Proof.
  apply (mine_keeps_searching sampleDigest 4 stuckBlock 1000).
  { simpl. lia. }
  { vm_compute. discriminate. }
  intros k _.
  unfold calculateHash, sampleDigest, stuckBlock, nonceAt. simpl.
  change (Z.of_nat 1) with 1.
  destruct (Z.eqb_spec ((5 + triangle k + 2000 + 1) mod 5) 0) as [Hzero | _];
    [| reflexivity].
  exfalso. apply (triangle_mod5 k).
  replace (5 + triangle k + 2000 + 1) with (triangle k + 1 + 401 * 5) in Hzero
    by lia.
  rewrite Z.mod_add in Hzero by lia.
  pose proof (Z.mod_pos_bound (triangle k) 5 ltac:(lia)) as Hbound.
  pose proof (Z.div_mod (triangle k + 1) 5 ltac:(lia)) as Hsum.
  pose proof (Z.div_mod (triangle k) 5 ltac:(lia)) as Ht.
  lia.
Defined.

(** ** Invariants of the engine *)

Lemma addTransaction_preserves (now : Z) (tx : Transaction)
    (m m' : MempoolController) (accepted : bool) :
  addTransaction now tx m = Ok (accepted, m') ->
  maxPoolSize m' = maxPoolSize m /\
  (getPendingCount m <= maxPoolSize m -> getPendingCount m' <= maxPoolSize m') /\
  (Sorted byPriority (pendingTransactions m) ->
   Sorted byPriority (pendingTransactions m')).
Proof.
  unfold addTransaction. fold (getPendingCount m).
  destruct (Z.geb_spec (getPendingCount m) (maxPoolSize m)) as [Hfull | Hroom].
  - destruct (getLowestPriority m) as [lowest |] eqn:Hlow; [| discriminate].
    destruct (Qle_bool _ _); intros Heq; inversion Heq; subst.
    + repeat split; auto.
    + split; [reflexivity |]. split.
      * intros Hle. rewrite pushPending_count, removeLowestPriority_count
          by (eapply getLowestPriority_nonempty; eassumption).
        simpl. lia.
      * intros _. apply StronglySorted_Sorted, pushPending_sorted.
  - intros Heq. inversion Heq; subst.
    split; [reflexivity |]. split.
    + intros _. rewrite pushPending_count. simpl. lia.
    + intros _. apply StronglySorted_Sorted, pushPending_sorted.
Qed.

Lemma addTransaction_returns (now : Z) (tx : Transaction)
    (m : MempoolController) :
  1 <= maxPoolSize m ->
  exists accepted m', addTransaction now tx m = Ok (accepted, m').
Proof.
  intros Hcap. unfold addTransaction, getLowestPriority.
  destruct (Z.geb_spec (Z.of_nat (length (pendingTransactions m)))
              (maxPoolSize m)) as [Hfull | Hroom]; [| eauto].
  destruct (last (pendingTransactions m)) as [lowest |] eqn:Hlast.
  - destruct (Qle_bool _ _); eauto.
  - apply last_None in Hlast. rewrite Hlast in Hfull. simpl in Hfull. lia.
Qed.

Lemma drained_pool (c : ChainController) :
  maxPoolSize (drained c).2 = maxPoolSize (mempool c) /\
  getPendingCount (drained c).2 <= getPendingCount (mempool c) /\
  (length (drained c).1 <= 10)%nat /\
  (Sorted byPriority (pendingTransactions (mempool c)) ->
   Sorted byPriority (pendingTransactions (drained c).2)).
Proof.
  unfold drained.
  destruct (getPendingCount (mempool c) >? 0); simpl.
  - unfold getPendingCount, maxTransactionsPerBlock.
    rewrite slice_prefix_nonneg, slice_suffix_nonneg by lia.
    cbn [pendingTransactions maxPoolSize].
    rewrite length_map, length_take, length_drop.
    repeat split; try lia.
    intros Hsorted.
    apply Sorted_StronglySorted in Hsorted; [| apply byPriority_transitive].
    rewrite <- (take_drop (Z.to_nat 10) (pendingTransactions (mempool c)))
      in Hsorted.
    apply StronglySorted_Sorted. eapply StronglySorted_app_1_r. exact Hsorted.
  - repeat split; auto; lia.
Qed.

Section Engine.

Variable digest : HashInput -> string.

(** Everything a completed [mineBlock] fixes about the block it returns. *)
Lemma mineBlock_block (fuel : nat) (nowTx nowBlock rnd : Z) (miner : string)
    (c c' : ChainController) (b : Block) :
  mineBlock digest fuel nowTx nowBlock rnd miner c = Ok (b, c') ->
  minerAddress b = miner /\ ts b = nowBlock /\
  hash digest b = calculateHash digest b /\
  meetsTarget (difficulty c) (hash digest b) = true /\
  minedShape b.
Proof.
  intros Hrun.
  pose proof (mineBlock_inv digest _ _ _ _ _ _ _ _ Hrun)
    as (tip & _ & _ & Htxs & _ & _).
  unfold mineBlock, draftBlock in Hrun. fold (drained c) in Hrun.
  destruct (drained c) as [txs pool] eqn:Hdrained; simpl in *.
  destruct (getLastBlock c) as [lastBlock |]; [| discriminate].
  destruct (mine digest fuel (difficulty c) _) as [[mined r] | |] eqn:Hmine;
    try discriminate.
  inversion Hrun; subst mined c'. clear Hrun.
  apply mineLoop_sound in Hmine. simpl in Hmine.
  destruct Hmine as (_ & _ & Hminer & Hts & Hcache & Hcalc & Hmeet).
  assert (Hhash : hash digest b = IMiningResult.hash r).
  { unfold hash. rewrite Hcache.
    destruct (truthy (IMiningResult.hash r)); [reflexivity | exact Hcalc]. }
  split; [exact Hminer |]. split; [exact Hts |].
  split; [congruence |]. split; [congruence |].
  exists txs, nowTx. rewrite Hminer.
  pose proof (drained_pool c) as (_ & _ & Hlen & _).
  rewrite Hdrained in Hlen. simpl in Hlen.
  unfold getTotalFees, getTransactionCount. rewrite Htxs.
  rewrite fold_left_app, !totalFees_sumOver, length_app. simpl.
  unfold miningReward. rewrite Z.add_0_l.
  repeat split; lia.
Qed.

Lemma Reachable_pool (P : Transaction -> Prop) (c : ChainController) :
  Reachable digest P c ->
  maxPoolSize (mempool c) = 100 /\
  getPendingCount (mempool c) <= 100 /\
  Sorted byPriority (pendingTransactions (mempool c)).
Proof.
  induction 1 as [nowTx nowBlock rnd
                 | c c' now tx accepted _ IH _ Hsubmit
                 | c c' fuel nowTx nowBlock rnd miner b _ IH Hmine
                 | c d _ IH].
  - split; [reflexivity |]. split; [vm_compute; discriminate | constructor].
  - destruct IH as (Hcap & Hsize & Hsorted).
    unfold addTransactionToMempool in Hsubmit.
    destruct (negb (valid (validateTransaction c tx))).
    + inversion Hsubmit; subst. repeat split; assumption.
    + destruct (addTransaction now tx (mempool c)) as [[acc m] | |] eqn:Hadd;
        try discriminate.
      inversion Hsubmit; subst. simpl.
      destruct (addTransaction_preserves _ _ _ _ _ Hadd) as (Hmax & Hle & Hs).
      split; [congruence |]. split; [| auto].
      rewrite Hmax, Hcap in Hle. apply Hle. exact Hsize.
  - destruct IH as (Hcap & Hsize & Hsorted).
    apply mineBlock_chain in Hmine. destruct Hmine as (_ & _ & ->).
    destruct (drained_pool c) as (Hmax & Hle & _ & Hs).
    split; [congruence |]. split; [lia | auto].
  - exact IH.
Qed.

Lemma Reachable_shape (P : Transaction -> Prop) (c : ChainController) :
  Reachable digest P c ->
  (exists nowTx nowBlock rnd,
     chain c !! 0%nat
     = Some (newBlock nowBlock rnd EmptyString [createGenesis nowTx] "GENESIS")) /\
  (forall (i : nat) (b : Block), chain c !! S i = Some b -> minedShape b) /\
  (forall (i : nat) (b : Block), chain c !! i = Some b ->
     hash digest b = calculateHash digest b).
Proof.
  induction 1 as [nowTx nowBlock rnd
                 | c c' now tx accepted _ IH _ Hsubmit
                 | c c' fuel nowTx nowBlock rnd miner b _ IH Hmine
                 | c d _ IH].
  - split; [eauto |]. split.
    + intros i b Hb. destruct i; discriminate.
    + intros [| i] b Hb; [| destruct i; discriminate].
      inversion Hb; subst. reflexivity.
  - apply addTransactionToMempool_frame in Hsubmit.
    destruct Hsubmit as (-> & _). exact IH.
  - destruct IH as ((nowTx0 & nowBlock0 & rnd0 & Hgenesis) & Hshape & Hhash).
    pose proof (mineBlock_chain digest _ _ _ _ _ _ _ _ Hmine) as (-> & _).
    pose proof (mineBlock_block _ _ _ _ _ _ _ _ Hmine)
      as (_ & _ & Hcalc & _ & Hmined).
    split.
    + exists nowTx0, nowBlock0, rnd0.
      rewrite lookup_app_l; [exact Hgenesis |].
      eapply lookup_lt_Some; eassumption.
    + split.
      * intros i b0 Hb0.
        apply lookup_app_Some in Hb0.
        destruct Hb0 as [Hold | [_ Hnew]]; [eapply Hshape; eassumption |].
        destruct (S i - length (chain c))%nat; [| destruct n; discriminate].
        inversion Hnew; subst. exact Hmined.
      * intros i b0 Hb0.
        apply lookup_app_Some in Hb0.
        destruct Hb0 as [Hold | [_ Hnew]]; [eapply Hhash; eassumption |].
        destruct (i - length (chain c))%nat; [| destruct n; discriminate].
        inversion Hnew; subst. exact Hcalc.
  - exact IH.
Qed.

End Engine.

(** X9: on every state of the engine (reached from the constructor by
    submissions, completed [mineBlock] calls and difficulty changes)
    [addTransactionToMempool] returns a boolean and never throws,
    [mineBlock] never throws either, and the pool holds at most 100
    entries in descending priority order. *)
Theorem engine_operations_do_not_throw (digest : HashInput -> string)
    (c : ChainController) :
  Reachable digest anyTransaction c ->
  (forall now tx, exists accepted c',
     addTransactionToMempool now tx c = Ok (accepted, c')) /\
  (forall fuel nowTx nowBlock rnd miner,
     mineBlock digest fuel nowTx nowBlock rnd miner c <> TypeError) /\
  getPendingTransactionCount c <= 100 /\
  Sorted byPriority (getAllPending (mempool c)).
Proof.
  intros Hreach.
  destruct (Reachable_pool digest _ c Hreach) as (Hcap & Hsize & Hsorted).
  split; [| split; [| split; assumption]].
  - intros now tx. unfold addTransactionToMempool.
    destruct (negb (valid (validateTransaction c tx))); [eauto |].
    destruct (addTransaction_returns now tx (mempool c)) as (acc & m & ->);
      [lia | eauto].
  - intros fuel nowTx nowBlock rnd miner.
    unfold mineBlock, draftBlock.
    destruct (if getPendingCount (mempool c) >? 0 then _ else _) as [txs pool].
    destruct (getLastBlock c) as [tip |] eqn:Htip.
    + destruct (mine digest fuel (difficulty c) _) as [[mined r] | |] eqn:Hmine;
        try discriminate.
      exfalso. exact (mineLoop_no_throw digest _ _ _ _ _ Hmine).
    + exfalso. unfold getLastBlock in Htip. apply last_None in Htip.
      exact (Reachable_nonempty digest _ c Hreach Htip).
Qed.

Lemma engine_operations_do_not_throw_witness :
  (forall now tx, exists accepted c',
     addTransactionToMempool now tx (stateOf afterFirstBlock)
     = Ok (accepted, c')) /\
  (forall fuel nowTx nowBlock rnd miner,
     mineBlock sampleDigest fuel nowTx nowBlock rnd miner
       (stateOf afterFirstBlock) <> TypeError) /\
  getPendingTransactionCount (stateOf afterFirstBlock) <= 100 /\
  Sorted byPriority (getAllPending (mempool (stateOf afterFirstBlock))).
Proof.
  apply (engine_operations_do_not_throw sampleDigest (stateOf afterFirstBlock)).
  exact afterFirstBlock_reachable.
Defined.

(** X10: the difficulty of the engine is always within 1..8:
    [setDifficulty d] stores [d] when it lies in that range, 1 when it is
    below and 8 when it is above, and touches nothing else. *)
Theorem difficulty_is_clamped (digest : HashInput -> string)
    (c : ChainController) (d : Z) :
  Reachable digest anyTransaction c ->
  1 <= getDifficulty c <= 8 /\
  (1 <= d <= 8 -> getDifficulty (setDifficulty d c) = d) /\
  (d < 1 -> getDifficulty (setDifficulty d c) = 1) /\
  (8 < d -> getDifficulty (setDifficulty d c) = 8) /\
  chain (setDifficulty d c) = chain c /\
  balances (setDifficulty d c) = balances c /\
  mempool (setDifficulty d c) = mempool c.
Proof.
  intros Hreach.
  split; [exact (Reachable_difficulty digest _ c Hreach) |].
  unfold getDifficulty, setDifficulty; simpl.
  repeat split; intros; lia.
Qed.

Lemma difficulty_is_clamped_witness :
  1 <= getDifficulty freshEngine <= 8 /\
  (1 <= 12 <= 8 -> getDifficulty (setDifficulty 12 freshEngine) = 12) /\
  (12 < 1 -> getDifficulty (setDifficulty 12 freshEngine) = 1) /\
  (8 < 12 -> getDifficulty (setDifficulty 12 freshEngine) = 8) /\
  chain (setDifficulty 12 freshEngine) = chain freshEngine /\
  balances (setDifficulty 12 freshEngine) = balances freshEngine /\
  mempool (setDifficulty 12 freshEngine) = mempool freshEngine.
Proof.
  apply (difficulty_is_clamped sampleDigest freshEngine 12).
  apply reach_new.
Defined.

Lemma afterTransfer_reachable_any :
  Reachable sampleDigest anyTransaction (stateOf afterTransfer).
Proof.
  assert (Hrun : exists b c', afterTransfer = Ok (b, c'))
    by (vm_compute; eauto).
  destruct Hrun as (b & c' & Hrun).
  assert (Hfirst : exists b1 c1, afterFirstBlock = Ok (b1, c1))
    by (vm_compute; eauto).
  destruct Hfirst as (b1 & c1 & Hfirst).
  unfold stateOf. rewrite Hrun.
  unfold afterTransfer in Hrun. rewrite Hfirst in Hrun.
  destruct (addTransactionToMempool 2500 aliceToBob c1)
    as [[acc c2] | |] eqn:Hsubmit; try discriminate.
  eapply reach_mine; [| exact Hrun].
  eapply (reach_submit _ _ c1 c2 2500 aliceToBob); [| exact I | exact Hsubmit].
  eapply reach_mine; [apply reach_new | exact Hfirst].
Qed.

(** X11: the chain of every engine state starts with the genesis block
    (empty previous hash, the single GENESIS transaction, miner "GENESIS"),
    and every later block holds at most ten transactions followed, in last
    place, by the REWARD that pays the block's miner 50 plus the fees of
    those transactions, so that [50 + getTotalFees()] is the amount of the
    reward and [getTransactionCount()] is at most 11. *)
Theorem chain_shape (digest : HashInput -> string) (c : ChainController) :
  Reachable digest anyTransaction c ->
  (exists nowTx nowBlock rnd,
     chain c !! 0%nat
     = Some (newBlock nowBlock rnd EmptyString [createGenesis nowTx] "GENESIS")) /\
  (forall (i : nat) (b : Block), chain c !! S i = Some b ->
     exists (txs : list Transaction) (reward : Transaction),
       transactions b = txs ++ [reward] /\
       type reward = REWARD /\
       payer reward = "MINING_REWARD" /\
       payee reward = minerAddress b /\
       fee reward = 0 /\
       amount reward = 50 + getTotalFees b /\
       getTotalFees b = sumOver fee txs /\
       1 <= Z.of_nat (getTransactionCount b) <= 11).
Proof.
  intros Hreach.
  destruct (Reachable_shape digest _ c Hreach) as (Hgenesis & Hshape & _).
  split; [exact Hgenesis |].
  intros i b Hb.
  destruct (Hshape i b Hb) as (txs & stamp & Htxs & Hlen & Hfees & Hcount).
  exists txs, (createReward stamp (minerAddress b) (50 + sumOver fee txs)).
  rewrite Hfees. simpl. repeat split; try assumption; lia.
Qed.

Lemma chain_shape_witness :
  (exists nowTx nowBlock rnd,
     chain (stateOf afterTransfer) !! 0%nat
     = Some (newBlock nowBlock rnd EmptyString [createGenesis nowTx] "GENESIS")) /\
  (forall (i : nat) (b : Block),
     chain (stateOf afterTransfer) !! S i = Some b ->
     exists (txs : list Transaction) (reward : Transaction),
       transactions b = txs ++ [reward] /\
       type reward = REWARD /\
       payer reward = "MINING_REWARD" /\
       payee reward = minerAddress b /\
       fee reward = 0 /\
       amount reward = 50 + getTotalFees b /\
       getTotalFees b = sumOver fee txs /\
       1 <= Z.of_nat (getTransactionCount b) <= 11).
Proof.
  apply (chain_shape sampleDigest (stateOf afterTransfer)).
  exact afterTransfer_reachable_any.
Defined.

(** X12: no block of the chain carries a stale hash: for every block of
    every engine state, the value of the [hash] getter is the digest of the
    block's stored fields (previous hash, transactions, timestamp, nonce,
    miner), whether the hash is cached (mined blocks) or computed on
    demand (the genesis block). *)
Theorem chain_hashes_match_content (digest : HashInput -> string)
    (c : ChainController) (i : nat) (b : Block) :
  Reachable digest anyTransaction c ->
  chain c !! i = Some b ->
  hash digest b = calculateHash digest b.
Proof.
  intros Hreach Hb.
  destruct (Reachable_shape digest _ c Hreach) as (_ & _ & Hhash).
  exact (Hhash i b Hb).
Qed.

Lemma chain_hashes_match_content_witness :
  hash sampleDigest
    (setHash (newBlock 2000 4 "a3f09c1e7-0" [createReward 2000 "alice" 50]
                "alice") "000000004-11")
  = calculateHash sampleDigest
      (setHash (newBlock 2000 4 "a3f09c1e7-0" [createReward 2000 "alice" 50]
                  "alice") "000000004-11").
Proof.
  apply (chain_hashes_match_content sampleDigest (stateOf afterFirstBlock) 1
           (setHash (newBlock 2000 4 "a3f09c1e7-0"
                       [createReward 2000 "alice" 50] "alice") "000000004-11")).
  - exact afterFirstBlock_reachable.
  - vm_compute. reflexivity.
Defined.

(** ** Validity under mining and difficulty changes *)

Lemma zeros_length (d : Z) : String.length (zeros d) = Z.to_nat d.
Proof.
  unfold zeros. induction (Z.to_nat d) as [| n IH]; simpl; [reflexivity |].
  now rewrite IH.
Qed.

(** The test of [mine] and the test of [isChainValid] accept the same
    hashes. *)
Lemma meetsTarget_prefix (d : Z) (h : string) :
  meetsTarget d h = true <-> String.prefix (zeros d) h = true.
Proof.
  unfold meetsTarget. rewrite String.eqb_eq, prefix_correct, zeros_length.
  reflexivity.
Qed.

Lemma prefix_cons (c a : ascii) (s h : string) :
  String.prefix (String c s) (String a h)
  = if ascii_dec c a then String.prefix s h else false.
Proof. reflexivity. Qed.

Lemma prefix_fewer_zeros (n : nat) : forall (m : nat) (h : string),
  (m <= n)%nat ->
  String.prefix (string_of_list_ascii (repeat "0"%char n)) h = true ->
  String.prefix (string_of_list_ascii (repeat "0"%char m)) h = true.
Proof.
  induction n as [| n IH]; intros m h Hle Hpre.
  - replace m with 0%nat by lia. exact Hpre.
  - destruct m as [| m]; [destruct h; reflexivity |].
    simpl in *. destruct h as [| a h]; [cbn in Hpre; discriminate |].
    rewrite prefix_cons in *.
    destruct (ascii_dec "0" a); [| discriminate].
    apply IH; [lia | exact Hpre].
Qed.

Section Validity.

Variable digest : HashInput -> string.

Lemma linkedAtDifficulty_snoc (d : Z) (blocks : list Block) (tip b : Block) :
  linkedAtDifficulty digest d blocks -> last blocks = Some tip ->
  prevHash b = hash digest tip ->
  String.prefix (zeros d) (hash digest b) = true ->
  linkedAtDifficulty digest d (blocks ++ [b]).
Proof.
  intros Hvalid Htip Hprev Htarget i p cur Hp Hcur.
  destruct (decide (S i < length blocks)%nat) as [Hin | Hout].
  - rewrite lookup_app_l in Hp by lia.
    rewrite lookup_app_l in Hcur by lia.
    eapply Hvalid; eassumption.
  - assert (Hlen : (S i < length (blocks ++ [b]))%nat)
      by (eapply lookup_lt_Some; eassumption).
    rewrite length_app in Hlen. simpl in Hlen.
    assert (Hi : S i = length blocks) by lia.
    rewrite lookup_app_l in Hp by lia.
    rewrite lookup_app_r in Hcur by lia.
    rewrite Hi, Nat.sub_diag in Hcur. simpl in Hcur.
    inversion Hcur; subst cur.
    rewrite last_lookup in Htip.
    replace (pred (length blocks)) with i in Htip by lia.
    rewrite Htip in Hp. inversion Hp; subst p. now split.
Qed.

End Validity.

(** X13: mining and submitting never break a valid chain: if
    [isChainValid] holds on an engine state, it holds after any completed
    [mineBlock] (the new block links to the tip and its hash meets the
    difficulty in force), and [addTransactionToMempool] does not change its
    value. *)
Theorem mining_preserves_validity (digest : HashInput -> string)
    (c : ChainController) :
  Reachable digest anyTransaction c ->
  isChainValid digest c = true ->
  (forall fuel nowTx nowBlock rnd miner b c',
     mineBlock digest fuel nowTx nowBlock rnd miner c = Ok (b, c') ->
     isChainValid digest c' = true) /\
  (forall now tx accepted c',
     addTransactionToMempool now tx c = Ok (accepted, c') ->
     isChainValid digest c' = true).
Proof.
  intros Hreach Hvalid. split.
  - intros fuel nowTx nowBlock rnd miner b c' Hmine.
    pose proof (mineBlock_chain digest _ _ _ _ _ _ _ _ Hmine)
      as (Hchain & Hdiff & _).
    pose proof (mineBlock_block digest _ _ _ _ _ _ _ _ Hmine)
      as (_ & _ & _ & Hmeet & _).
    apply mineBlock_inv in Hmine.
    destruct Hmine as (tip & Htip & Hprev & _).
    apply isChainValid_spec. rewrite Hchain, Hdiff.
    apply isChainValid_spec in Hvalid.
    eapply linkedAtDifficulty_snoc; try eassumption.
    now apply meetsTarget_prefix.
  - intros now tx accepted c' Hsubmit.
    apply addTransactionToMempool_frame in Hsubmit.
    destruct Hsubmit as (Hchain & _ & Hdiff).
    unfold isChainValid in *. now rewrite Hchain, Hdiff.
Qed.

Lemma mining_preserves_validity_witness :
  (forall fuel nowTx nowBlock rnd miner b c',
     mineBlock sampleDigest fuel nowTx nowBlock rnd miner
       (stateOf afterFirstBlock) = Ok (b, c') ->
     isChainValid sampleDigest c' = true) /\
  (forall now tx accepted c',
     addTransactionToMempool now tx (stateOf afterFirstBlock)
     = Ok (accepted, c') ->
     isChainValid sampleDigest c' = true).
Proof.
  apply (mining_preserves_validity sampleDigest (stateOf afterFirstBlock)).
  - exact afterFirstBlock_reachable.
  - vm_compute. reflexivity.
Defined.

(** X14: [isChainValid] judges every block by the current difficulty, so
    a valid chain stays valid when the difficulty is set to a value whose
    clamped form does not exceed the current one (raising it can turn
    blocks mined earlier invalid). *)
Theorem lowering_difficulty_keeps_validity (digest : HashInput -> string)
    (c : ChainController) (d : Z) :
  isChainValid digest c = true ->
  Z.max 1 (Z.min 8 d) <= difficulty c ->
  isChainValid digest (setDifficulty d c) = true.
Proof.
  intros Hvalid Hle.
  apply isChainValid_spec. apply isChainValid_spec in Hvalid.
  simpl. intros i p cur Hp Hcur.
  destruct (Hvalid i p cur Hp Hcur) as [Hlink Htarget].
  split; [exact Hlink |].
  unfold zeros in *.
  eapply (prefix_fewer_zeros (Z.to_nat (difficulty c))); [lia | exact Htarget].
Qed.

Lemma lowering_difficulty_keeps_validity_witness :
  isChainValid sampleDigest (setDifficulty 2 (stateOf afterFirstBlock)) = true.
Proof.
  apply (lowering_difficulty_keeps_validity sampleDigest
           (stateOf afterFirstBlock) 2).
  - vm_compute. reflexivity.
  - vm_compute. discriminate.
Defined.

(** ** Balances and their history *)

Lemma ledgerStep_untouched (a : string) (txs : list Transaction) :
  forall bal : Z,
  Forall (fun tx => payer tx <> a /\ payee tx <> a) txs ->
  fold_left (ledgerStep a) txs bal = bal.
Proof.
  induction txs as [| tx txs IH]; intros bal Hall; simpl; [reflexivity |].
  inversion Hall as [| ? ? [Hpayer Hpayee] Hrest]; subst.
  rewrite IH by exact Hrest.
  unfold ledgerStep.
  destruct (String.eqb_spec (payer tx) a); [contradiction |].
  destruct (String.eqb_spec (payee tx) a); [contradiction |].
  destruct (_ && _); reflexivity.
Qed.

(** X15: the balance table, which the engine updates block by block, is at
    every moment what a replay of the whole chain gives: REGULAR
    transactions debit amount plus fee from the payer and credit the amount
    to the payee, REWARD and GENESIS transactions credit the payee only; an
    address that no confirmed transaction names has balance 0. *)
Theorem balance_table_is_replay (digest : HashInput -> string)
    (c : ChainController) (a : string) :
  Reachable digest anyTransaction c ->
  getBalance c a = fold_left (ledgerStep a) (confirmed (chain c)) 0 /\
  (Forall (fun tx => payer tx <> a /\ payee tx <> a) (confirmed (chain c)) ->
   getBalance c a = 0).
Proof.
  intros Hreach.
  pose proof (Reachable_getBalance digest _ c a Hreach) as Hreplay.
  split; [exact Hreplay |].
  intros Hnone. rewrite Hreplay. now apply ledgerStep_untouched.
Qed.

Lemma balance_table_is_replay_witness :
  getBalance (stateOf afterTransfer) "bob"
  = fold_left (ledgerStep "bob") (confirmed (chain (stateOf afterTransfer))) 0 /\
  (Forall (fun tx => payer tx <> "bob" /\ payee tx <> "bob")
     (confirmed (chain (stateOf afterTransfer))) ->
   getBalance (stateOf afterTransfer) "bob" = 0).
Proof.
  apply (balance_table_is_replay sampleDigest (stateOf afterTransfer) "bob").
  exact afterTransfer_reachable_any.
Defined.

Lemma confirmed_cons (b : Block) (blocks : list Block) :
  confirmed (b :: blocks) = transactions b ++ confirmed blocks.
Proof. reflexivity. Qed.

Lemma historyLoop_length (a : string) (blocks : list Block) :
  forall i bal : Z, length (historyLoop a blocks i bal) = length blocks.
Proof.
  induction blocks as [| b blocks IH]; intros i bal; simpl; [reflexivity |].
  now rewrite IH.
Qed.

Lemma historyLoop_lookup (a : string) (blocks : list Block) :
  forall (i0 bal0 : Z) (i : nat) (e : IBalanceHistory.t),
  historyLoop a blocks i0 bal0 !! i = Some e ->
  exists b, blocks !! i = Some b /\
    IBalanceHistory.address e = a /\
    IBalanceHistory.blockHeight e = i0 + Z.of_nat i /\
    IBalanceHistory.timestamp e = ts b /\
    IBalanceHistory.balance e
    = fold_left (historyStep a) (confirmed (take (S i) blocks)) bal0.
Proof.
  induction blocks as [| b blocks IH]; intros i0 bal0 i e He; [discriminate |].
  destruct i as [| i]; simpl in He.
  - inversion He; subst; simpl. exists b.
    rewrite take_0. unfold confirmed; simpl. rewrite app_nil_r.
    repeat split. lia.
  - apply IH in He. destruct He as (b' & Hb' & Haddr & Hheight & Hts & Hbal).
    exists b'. split; [exact Hb' |]. split; [exact Haddr |].
    split; [lia |]. split; [exact Hts |].
    rewrite Hbal.
    change (take (S (S i)) (b :: blocks)) with (b :: take (S i) blocks).
    now rewrite confirmed_cons, fold_left_app.
Qed.

(** X16: [getBalanceHistory] returns one entry per block, in chain order;
    entry [i] carries the queried address, the height [i], the timestamp of
    block [i], and the balance obtained by going through the transactions
    of blocks 0..i, subtracting amount plus fee where the address is the
    payer and adding the amount where it is the payee. *)
Theorem balance_history_entries (c : ChainController) (a : string) :
  length (getBalanceHistory c a) = length (chain c) /\
  forall (i : nat) (e : IBalanceHistory.t),
    getBalanceHistory c a !! i = Some e ->
    exists b, chain c !! i = Some b /\
      IBalanceHistory.address e = a /\
      IBalanceHistory.blockHeight e = Z.of_nat i /\
      IBalanceHistory.timestamp e = ts b /\
      IBalanceHistory.balance e
      = fold_left (historyStep a) (confirmed (take (S i) (chain c))) 0.
Proof.
  unfold getBalanceHistory. split; [apply historyLoop_length |].
  intros i e He. apply historyLoop_lookup in He.
  destruct He as (b & Hb & Haddr & Hheight & Hts & Hbal).
  exists b. repeat split; try assumption; lia.
Qed.

Lemma confirmed_take_drop (k : nat) (blocks : list Block) :
  confirmed blocks = confirmed (take k blocks) ++ confirmed (drop k blocks).
Proof.
  unfold confirmed. now rewrite <- concat_app, <- map_app, take_drop.
Qed.

(** X17: for an address that pays no confirmed REWARD or GENESIS
    transaction (every wallet address; not the synthetic "genesis" and
    "MINING_REWARD" payers), every history entry is the balance that the
    table held at that height, and the last entry is the current
    [getBalance]. *)
Theorem history_tracks_balance_table (digest : HashInput -> string)
    (c : ChainController) (a : string) :
  Reachable digest anyTransaction c ->
  ~ paysSynthetic a (confirmed (chain c)) ->
  (forall (i : nat) (e : IBalanceHistory.t),
     getBalanceHistory c a !! i = Some e ->
     IBalanceHistory.balance e
     = fold_left (ledgerStep a) (confirmed (take (S i) (chain c))) 0) /\
  finalBalance (getBalanceHistory c a) = Some (getBalance c a).
Proof.
  intros Hreach Hnone. split.
  - intros i e He. unfold getBalanceHistory in He.
    apply historyLoop_lookup in He.
    destruct He as (b & _ & _ & _ & _ & ->).
    apply replays_agree. intros Hex. apply Hnone.
    unfold paysSynthetic in *.
    rewrite (confirmed_take_drop (S i) (chain c)).
    apply Exists_app. now left.
  - unfold getBalanceHistory.
    rewrite historyLoop_final by (eapply Reachable_nonempty; eassumption).
    rewrite replays_agree by exact Hnone.
    now rewrite (Reachable_getBalance digest _ c a Hreach).
Qed.

Lemma history_tracks_balance_table_witness :
  (forall (i : nat) (e : IBalanceHistory.t),
     getBalanceHistory (stateOf afterFirstBlock) "alice" !! i = Some e ->
     IBalanceHistory.balance e
     = fold_left (ledgerStep "alice")
         (confirmed (take (S i) (chain (stateOf afterFirstBlock)))) 0) /\
  finalBalance (getBalanceHistory (stateOf afterFirstBlock) "alice")
  = Some (getBalance (stateOf afterFirstBlock) "alice").
Proof.
  apply (history_tracks_balance_table sampleDigest (stateOf afterFirstBlock)
           "alice").
  - exact afterFirstBlock_reachable.
  - unfold paysSynthetic. vm_compute.
    intros Hex.
    repeat (apply Exists_cons in Hex; destruct Hex as [[_ Hex] | Hex];
            [discriminate |]).
    inversion Hex.
Defined.

Lemma historyLoop_snoc (a : string) (blocks : list Block) (b : Block) :
  forall i bal : Z,
  historyLoop a (blocks ++ [b]) i bal
  = historyLoop a blocks i bal
    ++ [IBalanceHistory.make a
          (fold_left (historyStep a) (confirmed (blocks ++ [b])) bal)
          (ts b) (i + Z.of_nat (length blocks))].
Proof.
  induction blocks as [| b0 blocks IH]; intros i bal.
  - simpl. unfold confirmed; simpl. rewrite app_nil_r, Z.add_0_r. reflexivity.
  - cbn [app historyLoop]. rewrite IH. cbn [app].
    rewrite confirmed_cons, fold_left_app.
    replace (i + 1 + Z.of_nat (length blocks))
      with (i + Z.of_nat (length (b0 :: blocks))) by (cbn [length]; lia).
    reflexivity.
Qed.

(** X18: mining never rewrites history: after a completed [mineBlock] the
    balance history of any address is the history before, followed by one
    new entry whose height is the old chain length and whose timestamp is
    that of the new block. *)
Theorem mining_appends_to_history (digest : HashInput -> string)
    (c c' : ChainController) (b : Block) (fuel : nat)
    (nowTx nowBlock rnd : Z) (miner a : string) :
  mineBlock digest fuel nowTx nowBlock rnd miner c = Ok (b, c') ->
  getBalanceHistory c' a
  = getBalanceHistory c a
    ++ [IBalanceHistory.make a
          (fold_left (historyStep a) (confirmed (chain c')) 0)
          nowBlock (getChainLength c)].
Proof.
  intros Hmine.
  pose proof (mineBlock_chain digest _ _ _ _ _ _ _ _ Hmine) as (Hchain & _).
  pose proof (mineBlock_block digest _ _ _ _ _ _ _ _ Hmine) as (_ & Hts & _).
  unfold getBalanceHistory, getChainLength. rewrite Hchain.
  rewrite historyLoop_snoc, Hts. reflexivity.
Qed.

Lemma mining_appends_to_history_witness :
  getBalanceHistory (stateOf afterFirstBlock) "alice"
  = getBalanceHistory freshEngine "alice"
    ++ [IBalanceHistory.make "alice"
          (fold_left (historyStep "alice")
             (confirmed (chain (stateOf afterFirstBlock))) 0)
          2000 (getChainLength freshEngine)].
Proof.
  assert (Hrun : exists b c', afterFirstBlock = Ok (b, c'))
    by (vm_compute; eauto).
  destruct Hrun as (b & c' & Hrun).
  unfold stateOf. rewrite Hrun.
  exact (mining_appends_to_history sampleDigest freshEngine c' b 10
           2000 2000 3 "alice" "alice" Hrun).
Defined.

(** ** What validation lets through *)

Section Effects.

Variable digest : HashInput -> string.






End Effects.








(** ** Saving and reloading the chain *)

Lemma reconstructTransaction_saved (tx : Transaction) :
  reconstructTransaction (parsedTransaction (toJSON tx)) = reloaded tx.
Proof.
  unfold reconstructTransaction, parsedTransaction, toJSON, reloaded,
    newTransaction, setSignature; simpl.
  destruct (signature tx) as [sig |]; [| reflexivity].
  destruct (truthy sig); reflexivity.
Qed.

Lemma toJSON_reloaded (tx : Transaction) :
  signature tx <> Some EmptyString -> toJSON (reloaded tx) = toJSON tx.
Proof.
  intros Hsig. unfold toJSON, reloaded; simpl.
  destruct (signature tx) as [[| a sig] |]; simpl; congruence.
Qed.

Lemma historyStep_reloaded (a : string) (bal : Z) (tx : Transaction) :
  historyStep a bal (reloaded tx) = historyStep a bal tx.
Proof. reflexivity. Qed.

(** X22: what comes back from a save and a load.  [reconstructBlocks]
    applied to the blocks that [exportToJSON] writes returns, for each
    block, a block with the same previous hash, miner, timestamp and nonce
    and with the getter's hash frozen in the cache (left unset when that
    hash is the empty string); its transactions keep amount, payer, payee,
    fee, timestamp and a non-empty signature, but all come back with type
    REGULAR, since [toJSON] does not write the type. *)
Theorem save_and_reload (digest : HashInput -> string) (blocks : list Block) :
  reconstructBlocks (savedBlocks digest blocks)
  = map (fun b =>
           {| prevHash := prevHash b;
              transactions := map reloaded (transactions b);
              minerAddress := minerAddress b;
              ts := ts b;
              nonce := nonce b;
              _hash := if truthy (hash digest b) then Some (hash digest b)
                       else None |}) blocks /\
  Forall (fun b => Forall (fun tx => type tx = REGULAR) (transactions b))
    (reconstructBlocks (savedBlocks digest blocks)).
Proof.
  assert (Heq : forall b,
             reconstructBlock (parsedBlock (Block_toJSON digest b))
             = {| prevHash := prevHash b;
                  transactions := map reloaded (transactions b);
                  minerAddress := minerAddress b;
                  ts := ts b;
                  nonce := nonce b;
                  _hash := if truthy (hash digest b) then Some (hash digest b)
                           else None |}).
  { intros b. unfold reconstructBlock, parsedBlock, Block_toJSON; simpl.
    rewrite !map_map.
    rewrite (map_ext _ reloaded) by (intros tx; apply reconstructTransaction_saved).
    destruct (truthy (hash digest b)); reflexivity. }
  unfold reconstructBlocks, savedBlocks. rewrite map_map.
  split.
  - apply map_ext. exact Heq.
  - apply Forall_map. apply Forall_forall. intros b _.
    rewrite Heq. simpl. apply Forall_map. apply Forall_forall.
    intros tx _. reflexivity.
Qed.

Lemma hash_reloaded (digest : HashInput -> string) (b : Block) :
  noEmptySignature b ->
  hash digest (reconstructBlock (parsedBlock (Block_toJSON digest b)))
  = hash digest b.
Proof.
  intros Hsig.
  unfold reconstructBlock, parsedBlock, Block_toJSON; simpl.
  destruct (truthy (hash digest b)) eqn:Htruthy.
  - unfold hash at 1. simpl. now rewrite Htruthy.
  - assert (Hcalc : hash digest b = calculateHash digest b).
    { unfold hash in *. destruct (_hash b) as [h |]; [| reflexivity].
      destruct (truthy h) eqn:Hh; [congruence | reflexivity]. }
    rewrite Hcalc. unfold hash, calculateHash; simpl.
    rewrite !map_map. f_equal. f_equal.
    apply map_ext_Forall. unfold noEmptySignature in Hsig.
    eapply Forall_impl; [exact Hsig |].
    intros tx Htx. simpl.
    rewrite reconstructTransaction_saved. now apply toJSON_reloaded.
Qed.

Lemma linkedAtDifficulty_map (digest : HashInput -> string) (d : Z)
    (f : Block -> Block) (blocks : list Block) :
  Forall (fun b => hash digest (f b) = hash digest b /\
                   prevHash (f b) = prevHash b) blocks ->
  linkedAtDifficulty digest d (map f blocks) <->
  linkedAtDifficulty digest d blocks.
Proof.
  intros Hsame.
  assert (Hat : forall i b, blocks !! i = Some b ->
                  hash digest (f b) = hash digest b /\
                  prevHash (f b) = prevHash b).
  { intros i b Hb. eapply Forall_lookup_1 in Hsame; eassumption. }
  split; intros Hvalid i p cur Hp Hcur.
  - destruct (Hat _ _ Hp) as (Hhp & _).
    destruct (Hat _ _ Hcur) as (Hhc & Hpc).
    destruct (Hvalid i (f p) (f cur)) as [Hlink Htarget].
    + rewrite list_lookup_fmap, Hp. reflexivity.
    + rewrite list_lookup_fmap, Hcur. reflexivity.
    + split; congruence.
  - rewrite list_lookup_fmap in Hp, Hcur.
    destruct (blocks !! i) as [p0 |] eqn:Hp0; [| discriminate].
    destruct (blocks !! S i) as [cur0 |] eqn:Hcur0; [| discriminate].
    simpl in Hp, Hcur. inversion Hp; inversion Hcur; subst.
    destruct (Hat _ _ Hp0) as (Hhp & _).
    destruct (Hat _ _ Hcur0) as (Hhc & Hpc).
    destruct (Hvalid i p0 cur0 Hp0 Hcur0) as [Hlink Htarget].
    split; congruence.
Qed.

(** X23: saving and reloading keeps the chain verifiable: when no
    transaction carries an empty-string signature, every reloaded block has
    the hash and the previous hash of the block it was saved from, so the
    reloaded chain passes the test of [isChainValid] (links and difficulty
    for every adjacent pair) exactly when the saved chain does. *)
Theorem reload_keeps_hashes (digest : HashInput -> string) (d : Z)
    (blocks : list Block) :
  Forall noEmptySignature blocks ->
  map (hash digest) (reconstructBlocks (savedBlocks digest blocks))
  = map (hash digest) blocks /\
  map prevHash (reconstructBlocks (savedBlocks digest blocks))
  = map prevHash blocks /\
  (linkedAtDifficulty digest d (reconstructBlocks (savedBlocks digest blocks))
   <-> linkedAtDifficulty digest d blocks).
Proof.
  intros Hsig.
  unfold reconstructBlocks, savedBlocks. rewrite !map_map.
  split; [| split].
  - apply map_ext_Forall. eapply Forall_impl; [exact Hsig |].
    intros b Hb. now apply hash_reloaded.
  - apply map_ext. intros b.
    unfold reconstructBlock, parsedBlock, Block_toJSON; simpl.
    destruct (truthy (hash digest b)); reflexivity.
  - apply linkedAtDifficulty_map.
    eapply Forall_impl; [exact Hsig |].
    intros b Hb. split; [now apply hash_reloaded |].
    unfold reconstructBlock, parsedBlock, Block_toJSON; simpl.
    destruct (truthy (hash digest b)); reflexivity.
Qed.

Lemma reload_keeps_hashes_witness :
  map (hash sampleDigest)
    (reconstructBlocks (savedBlocks sampleDigest (chain (stateOf afterTransfer))))
  = map (hash sampleDigest) (chain (stateOf afterTransfer)) /\
  map prevHash
    (reconstructBlocks (savedBlocks sampleDigest (chain (stateOf afterTransfer))))
  = map prevHash (chain (stateOf afterTransfer)) /\
  (linkedAtDifficulty sampleDigest 4
     (reconstructBlocks (savedBlocks sampleDigest (chain (stateOf afterTransfer))))
   <-> linkedAtDifficulty sampleDigest 4 (chain (stateOf afterTransfer))).
Proof.
  apply (reload_keeps_hashes sampleDigest 4 (chain (stateOf afterTransfer))).
  unfold noEmptySignature. vm_compute.
  repeat (constructor; [repeat (constructor; [discriminate |]); constructor |]).
  constructor.
Defined.

(** X24: the balance history does not notice a save and a reload: computed
    over the reloaded chain it is, for every address, the history computed
    over the saved chain (it reads payer, payee, amount and fee, never the
    type that the reload loses). *)
Theorem reload_keeps_history (digest : HashInput -> string)
    (c : ChainController) (a : string) :
  getBalanceHistory
    {| chain := reconstructBlocks (savedBlocks digest (chain c));
       mempool := mempool c; balances := balances c;
       difficulty := difficulty c |} a
  = getBalanceHistory c a.
Proof.
  unfold getBalanceHistory; simpl.
  unfold reconstructBlocks, savedBlocks. rewrite map_map.
  generalize 0 at 1 3. generalize 0.
  induction (chain c) as [| b blocks IH]; intros bal i; [reflexivity |].
  cbn [map historyLoop].
  assert (Hstep : forall txs start,
             fold_left (historyStep a)
               (map reconstructTransaction (map parsedTransaction (map toJSON txs)))
               start
             = fold_left (historyStep a) txs start).
  { induction txs as [| tx txs IHtxs]; intros start; [reflexivity |].
    cbn [map fold_left]. rewrite reconstructTransaction_saved.
    rewrite historyStep_reloaded. apply IHtxs. }
  assert (Hblock :
    transactions (reconstructBlock (parsedBlock (Block_toJSON digest b)))
    = map reconstructTransaction
        (map parsedTransaction (map toJSON (transactions b))) /\
    ts (reconstructBlock (parsedBlock (Block_toJSON digest b))) = ts b).
  { unfold reconstructBlock, parsedBlock, Block_toJSON; simpl.
    destruct (truthy (hash digest b)); split; reflexivity. }
  destruct Hblock as (-> & ->).
  rewrite Hstep, IH. reflexivity.
Qed.

(** ** The event log of the simulation and the wallet registry *)

(** X25: the event log of the live simulation keeps the 50 newest events,
    newest first: [addEvent] puts the event in front and cuts the log at 50
    entries, so the log never holds more than 50, and [getEvents count]
    (for [count >= 0]) then returns the [min count 50] newest events
    starting with the one just added. *)
Theorem event_log_keeps_newest {E : Type} (event : E) (events : list E) :
  addEvent event events = take 50 (event :: events) /\
  (length (addEvent event events) <= 50)%nat /\
  forall count : Z, 0 <= count ->
    getEvents count (addEvent event events)
    = take (Nat.min (Z.to_nat count) 50) (event :: events).
Proof.
  assert (Hadd : addEvent event events = take 50 (event :: events)).
  { unfold addEvent, maxEvents.
    destruct (Z.gtb_spec (Z.of_nat (length (event :: events))) 50) as [Hbig | Hsmall].
    - now rewrite slice_prefix_nonneg by lia.
    - rewrite take_ge; [reflexivity | lia]. }
  split; [exact Hadd |]. split.
  - rewrite Hadd, length_take. lia.
  - intros count Hcount. unfold getEvents.
    rewrite slice_prefix_nonneg by exact Hcount.
    now rewrite Hadd, take_take.
Qed.

(** X26: [createWallet] throws exactly when the name is taken; otherwise it
    returns the new wallet and registers it: [getWallet] finds it under its
    name, [getWalletName] finds the name under its public key, the wallet
    count grows by one and the wallets under other names are untouched. *)
Theorem createWallet_registers (name : string) (wallet : Wallet)
    (wm : WalletManager) :
  (createWallet name wallet wm = None <-> hasWallet name wm = true) /\
  forall (created : Wallet) (wm' : WalletManager),
    createWallet name wallet wm = Some (created, wm') ->
    created = wallet /\
    getWallet name wm' = Some wallet /\
    getWalletName (publicKey wallet) wm' = Some name /\
    hasWallet name wm' = true /\
    getWalletCount wm' = S (getWalletCount wm) /\
    forall other, other <> name -> getWallet other wm' = getWallet other wm.
Proof.
  unfold createWallet.
  destruct (hasWallet name wm) eqn:Hhas.
  - split; [split; reflexivity | discriminate].
  - split; [split; discriminate |].
    intros created wm' Heq. inversion Heq; subst. clear Heq.
    unfold getWallet, getWalletName, hasWallet, getWalletCount in *; simpl.
    apply bool_decide_eq_false in Hhas.
    assert (Hnone : wallets wm !! name = None).
    { destruct (wallets wm !! name) eqn:Hlook; [| reflexivity].
      exfalso. apply Hhas. eauto. }
    split; [reflexivity |].
    split; [apply lookup_insert_eq |].
    split; [apply lookup_insert_eq |].
    split; [apply bool_decide_eq_true; rewrite lookup_insert_eq; eauto |].
    split; [now apply map_size_insert_None |].
    intros other Hne. now apply lookup_insert_ne.
Qed.
